(** * Voice-activity-triggered recording: [record_with_vad] of mcp-server/server.py

    A shallow embedding of the recording controller of the voice-notes MCP
    server, and the properties of its specification checked against it.

    The function under study opens the capture device, reads fixed-size
    frames in a bounded loop, classifies each one with the voice activity
    detector, keeps a bounded pre-speech buffer until three consecutive
    voiced frames trigger the recording, then appends frames until the
    bounded ring of recent classifications is full and less than 10% voiced,
    releases the device, and writes the captured frames to a WAV file. *)

From Stdlib Require Import List Arith Bool ZArith Lia.
From Stdlib.Strings Require Import Byte.
From Stdlib Require Ascii String.
From Stdlib.Floats Require SpecFloat.
Import ListNotations.

Set Implicit Arguments.

(** ** Configuration constants and the duration-to-frame-count conversions *)

Module Conversion.

(** *** Python floats

    A Python [float] is an IEEE 754 binary64 number: 53 bits of precision,
    every operation rounded to nearest, ties to even. *)
Module Double.
Import SpecFloat.

Definition prec : Z := 53.
Definition emax : Z := 1024.

(** The conversion of an [int] operand in mixed arithmetic ([x * 1000],
    [x / FRAME_DURATION_MS]): the nearest double; an [int] beyond the
    largest double raises [OverflowError] ([None]). *)
Definition of_int (n : Z) : option spec_float :=
  match binary_normalize prec emax n 0 false with
  | S754_infinity _ => None
  | x => Some x
  end.

(** [x * y] on floats. *)
Definition mul (x y : spec_float) : spec_float := SFmul prec emax x y.

Definition is_zero (x : spec_float) : bool :=
  match x with
  | S754_zero _ => true
  | _ => false
  end.

(** [x / y] on floats: a zero divisor raises [ZeroDivisionError]
    ([None]). *)
Definition div (x y : spec_float) : option spec_float :=
  if is_zero y then None else Some (SFdiv prec emax x y).

(** [int(x)]: the integer part of [x], rounding toward zero; an infinity
    raises [OverflowError] and a NaN [ValueError] ([None]). *)
Definition int (x : spec_float) : option Z :=
  match x with
  | S754_zero _ => Some 0%Z
  | S754_finite s m e =>
      let n := if (0 <=? e)%Z
               then (Z.pos m * 2 ^ e)%Z
               else (Z.pos m / 2 ^ (- e))%Z in
      Some (if s then (- n)%Z else n)
  | _ => None
  end.

End Double.

(** A float literal of the source as it is written: [digits] followed by
    a decimal point [places] digits from the right, so [1.5] is 15 with
    one place and [0.3] is 3 with one place. *)
Record Decimal := mkDecimal {
  digits : Z;
  places : nat
}.

(** The double a literal denotes, the nearest one to its decimal value.
    The digits and the power of ten are whole numbers below 2^53 for
    literals of up to 15 digits, so both convert exactly and the rounded
    quotient is the nearest double. *)
Definition literal (d : Decimal) : option SpecFloat.spec_float :=
  match Double.of_int (digits d),
        Double.of_int (10 ^ Z.of_nat (places d)) with
  | Some a, Some b => Double.div a b
  | _, _ => None
  end.

(** [seconds * 1000 / frame_ms], with [seconds] a float and the two other
    operands ints: a float product, then a float quotient. *)
Definition ms_quotient (seconds : Decimal) (frame_ms : Z)
  : option SpecFloat.spec_float :=
  match literal seconds, Double.of_int 1000, Double.of_int frame_ms with
  | Some x, Some k, Some f => Double.div (Double.mul x k) f
  | _, _, _ => None
  end.

(** [int(seconds * 1000 / frame_ms)] for a float [seconds]. *)
Definition frames_of_seconds (seconds : Decimal) (frame_ms : Z) : option Z :=
  match ms_quotient seconds frame_ms with
  | Some q => Double.int q
  | None => None
  end.


(** [int(a / b)] for two ints: Python's true division followed by [int],
    which truncates toward zero.  The operands here are whole numbers far
    below 2^53, for which the quotient computed in double precision and
    then truncated is the truncated integer quotient ([int_true_div] gives
    the same on the constants of the server). *)
Definition frames_of_duration (duration_ms frame_ms : Z) : Z :=
  Z.quot duration_ms frame_ms.


(** The module-level constants.  [SILENCE_TIMEOUT_SEC] and
    [SPEECH_PAD_SEC] are float literals (1.5 and 0.3), the three others
    are ints (16000, 30 and 300). *)
Record Config := mkConfig {
  SAMPLE_RATE : Z;
  FRAME_DURATION_MS : Z;
  SILENCE_TIMEOUT_SEC : Decimal;
  SPEECH_PAD_SEC : Decimal;
  MAX_RECORDING_SEC : Z
}.

Definition server_config : Config :=
  {| SAMPLE_RATE := 16000;
     FRAME_DURATION_MS := 30;
     SILENCE_TIMEOUT_SEC := {| digits := 15; places := 1 |};
     SPEECH_PAD_SEC := {| digits := 3; places := 1 |};
     MAX_RECORDING_SEC := 300 |}.

(** [FRAME_SIZE = int(SAMPLE_RATE * FRAME_DURATION_MS / 1000)] *)
Definition FRAME_SIZE (cfg : Config) : Z :=
  frames_of_duration (SAMPLE_RATE cfg * FRAME_DURATION_MS cfg) 1000.

(** [ring_buffer.maxlen = int(SILENCE_TIMEOUT_SEC * 1000 / FRAME_DURATION_MS)] *)
Definition ring_capacity (cfg : Config) : option Z :=
  frames_of_seconds (SILENCE_TIMEOUT_SEC cfg) (FRAME_DURATION_MS cfg).

(** [padding_frames = int(SPEECH_PAD_SEC * 1000 / FRAME_DURATION_MS)] *)
Definition padding_capacity (cfg : Config) : option Z :=
  frames_of_seconds (SPEECH_PAD_SEC cfg) (FRAME_DURATION_MS cfg).

(** [max_frames = int(MAX_RECORDING_SEC * 1000 / FRAME_DURATION_MS)], the
    product being an int. *)
Definition frame_cap (cfg : Config) : Z :=
  frames_of_duration (MAX_RECORDING_SEC cfg * 1000) (FRAME_DURATION_MS cfg).

End Conversion.

(** ** Bounded deques *)

Module Deque.

(** [collections.deque(maxlen=n).append(x)]: the item is added on the right
    and, when the length then exceeds [maxlen], one item is dropped from the
    left. *)
Definition append {A : Type} (maxlen : nat) (d : list A) (x : A) : list A :=
  let d' := d ++ [x] in
  if maxlen <? length d' then tl d' else d'.

End Deque.

(** ** The controller *)

(** A frame is the [bytes] object returned by [stream.read]. *)
Definition Frame := list byte.

(** The three frame counts computed before the loop. *)
Record Caps := mkCaps {
  ring_maxlen : nat;      (* ring_buffer.maxlen *)
  padding_frames : nat;   (* pre_speech_buffer.maxlen *)
  max_frames : nat
}.

(** The counts as the code computes them from the constants.  [None] when
    a conversion raises, or when a [deque] is given a negative [maxlen]
    ([ValueError]); a negative [max_frames] lets the loop read no frame,
    as 0 does. *)
Definition caps_of_config (cfg : Conversion.Config) : option Caps :=
  match Conversion.ring_capacity cfg, Conversion.padding_capacity cfg with
  | Some r, Some p =>
      if ((0 <=? r) && (0 <=? p))%Z
      then Some {| ring_maxlen := Z.to_nat r;
                   padding_frames := Z.to_nat p;
                   max_frames := Z.to_nat (Conversion.frame_cap cfg) |}
      else None
  | _, _ => None
  end.

(** The counts of the server; its conversions raise nothing. *)
Definition server_caps : Caps :=
  match caps_of_config Conversion.server_config with
  | Some c => c
  | None => {| ring_maxlen := 0; padding_frames := 0; max_frames := 0 |}
  end.

(** What the outside world does in one call: whether [pa.open] succeeds,
    what the [i]-th call of [stream.read] returns ([None] when it raises),
    what [vad.is_speech] returns on the [i]-th frame ([None] when it raises),
    and whether writing the WAV file succeeds. *)
Record Env := mkEnv {
  open_ok : bool;
  dev_read : nat -> option Frame;
  vad_is_speech : nat -> Frame -> option bool;
  write_ok : bool
}.

(** Lines printed to stderr. *)
Inductive Msg :=
| MsgOpenError      (* "Error opening audio stream: ..." *)
| MsgListening      (* "Listening... (speak now, recording stops after silence)" *)
| MsgReadError      (* "Audio read error: ..." *)
| MsgRecording      (* "   Recording..." *)
| MsgSilence        (* "   Silence detected, stopping." *)
| MsgMaxTime        (* "   Max recording time reached." *)
| MsgNoSpeech       (* "   No speech detected." *)
| MsgWriteError.    (* "Error writing audio file: ..." *)

(** Desktop notifications. *)
Inductive Note := NoteListening | NoteRecording | NoteStopped.

(** The observable actions of one call, in program order. *)
Inductive Event :=
| EOpen (ok : bool)                         (* pa.open(...) *)
| ERead (i : nat) (ok : bool)               (* stream.read(FRAME_SIZE), i-th call *)
| EStopStream                               (* stream.stop_stream() *)
| ECloseStream                              (* stream.close() *)
| ETerminate                                (* pa.terminate() *)
| EPrint (m : Msg)
| ENotify (n : Note)
| EWriteWav (payload : list byte) (ok : bool). (* wave.open(..).writeframes(b''.join(frames)) *)

(** The local variables of the frame loop. *)
Record LoopState := mkState {
  frames : list Frame;
  ring_buffer : list bool;
  triggered : bool;
  voiced_frames : nat;
  total_frames : nat;
  pre_speech_buffer : list Frame
}.

Definition initial_state : LoopState :=
  {| frames := []; ring_buffer := []; triggered := false;
     voiced_frames := 0; total_frames := 0; pre_speech_buffer := [] |}.

(** [is_speech] after the [try]/[except Exception] around the classifier. *)
Definition is_speech_of (r : option bool) : bool :=
  match r with
  | Some b => b
  | None => false
  end.

(** [sum(ring_buffer)] *)
Definition num_voiced (rb : list bool) : nat := count_occ bool_dec rb true.

(** [num_voiced < len(ring_buffer) * 0.1].  The product is a double; for a
    length that is a multiple of ten it is the exact tenth, and otherwise it
    lies strictly between the same two integers as the exact tenth, so the
    comparison with the integer [num_voiced] is the integer comparison
    below. *)
Definition mostly_silent (rb : list bool) : bool :=
  10 * num_voiced rb <? length rb.

(** [total_frames += 1] *)
Definition count_frame (st : LoopState) : LoopState :=
  {| frames := frames st; ring_buffer := ring_buffer st;
     triggered := triggered st; voiced_frames := voiced_frames st;
     total_frames := S (total_frames st);
     pre_speech_buffer := pre_speech_buffer st |}.

(** The [if not triggered: ... else: ...] part of the loop body.  The third
    component tells whether the body ended in [break]. *)
Definition on_frame (c : Caps) (st : LoopState) (frame : Frame) (is_speech : bool)
  : LoopState * list Event * bool :=
  if negb (triggered st) then
    let pre := Deque.append (padding_frames c) (pre_speech_buffer st) frame in
    if is_speech then
      let v := S (voiced_frames st) in
      if 3 <=? v then
        ({| frames := frames st ++ pre; ring_buffer := ring_buffer st;
            triggered := true; voiced_frames := 0;
            total_frames := total_frames st; pre_speech_buffer := pre |},
         [EPrint MsgRecording; ENotify NoteRecording], false)
      else
        ({| frames := frames st; ring_buffer := ring_buffer st;
            triggered := false; voiced_frames := v;
            total_frames := total_frames st; pre_speech_buffer := pre |},
         [], false)
    else
      ({| frames := frames st; ring_buffer := ring_buffer st;
          triggered := false; voiced_frames := 0;
          total_frames := total_frames st; pre_speech_buffer := pre |},
       [], false)
  else
    let rb := Deque.append (ring_maxlen c) (ring_buffer st) is_speech in
    let st' :=
      {| frames := frames st ++ [frame]; ring_buffer := rb;
         triggered := true; voiced_frames := voiced_frames st;
         total_frames := total_frames st;
         pre_speech_buffer := pre_speech_buffer st |} in
    if length rb =? ring_maxlen c then
      if mostly_silent rb then
        (st', [EPrint MsgSilence; ENotify NoteStopped], true)
      else (st', [], false)
    else (st', [], false).

(** How the [while] loop was left. *)
Inductive LoopExit :=
| ExitCap        (* the condition total_frames < max_frames became false *)
| ExitReadError  (* break after stream.read raised *)
| ExitSilence.   (* break after the silence check *)

(** One pass through the loop body for a frame that was read: count it,
    classify it, update the state. *)
Definition process_frame (c : Caps) (env : Env) (st : LoopState) (frame : Frame)
  : LoopState * list Event * bool :=
  let i := total_frames st in
  on_frame c (count_frame st) frame (is_speech_of (vad_is_speech env i frame)).

(** [while total_frames < max_frames: ...], run for at most [fuel] passes
    through the body; [None] when the fuel runs out first. *)
Fixpoint while_loop (c : Caps) (env : Env) (fuel : nat) (st : LoopState)
  : option (LoopState * list Event * LoopExit) :=
  match fuel with
  | 0 => None
  | S fuel' =>
    if total_frames st <? max_frames c then
      let i := total_frames st in
      match dev_read env i with
      | None => Some (st, [ERead i false; EPrint MsgReadError], ExitReadError)
      | Some frame =>
        match process_frame c env st frame with
        | (st', evs, true) => Some (st', ERead i true :: evs, ExitSilence)
        | (st', evs, false) =>
          match while_loop c env fuel' st' with
          | Some (st'', evs', ex) => Some (st'', ERead i true :: evs ++ evs', ex)
          | None => None
          end
        end
      end
    else Some (st, [], ExitCap)
  end.

(** The same loop by recursion on [remaining = max_frames - total_frames],
    which every pass through the body decreases: the loop condition is the
    test [remaining <> 0].  [while_loop_terminates] below shows that this is
    the result of [while_loop] whenever the fuel exceeds [remaining]. *)
Fixpoint loop (c : Caps) (env : Env) (remaining : nat) (st : LoopState)
  : LoopState * list Event * LoopExit :=
  match remaining with
  | 0 => (st, [], ExitCap)
  | S remaining' =>
    let i := total_frames st in
    match dev_read env i with
    | None => (st, [ERead i false; EPrint MsgReadError], ExitReadError)
    | Some frame =>
      match process_frame c env st frame with
      | (st', evs, true) => (st', ERead i true :: evs, ExitSilence)
      | (st', evs, false) =>
        match loop c env remaining' st' with
        | (st'', evs', ex) => (st'', ERead i true :: evs ++ evs', ex)
        end
      end
    end
  end.

Definition run_loop (c : Caps) (env : Env) : LoopState * list Event * LoopExit :=
  loop c env (max_frames c - total_frames initial_state) initial_state.

Definition final_state (c : Caps) (env : Env) : LoopState :=
  fst (fst (run_loop c env)).

Definition loop_events (c : Caps) (env : Env) : list Event :=
  snd (fst (run_loop c env)).

Definition loop_exit (c : Caps) (env : Env) : LoopExit :=
  snd (run_loop c env).

(** [b''.join(frames)] *)
Definition wav_payload (fs : list Frame) : list byte := concat fs.

(** The [finally] block: [stream.stop_stream()], [stream.close()] and
    [pa.terminate()], each taken to return normally. *)
Definition release_stream : list Event := [EStopStream; ECloseStream; ETerminate].

(** What the caller gets back ([ret]) and what happened on the way. *)
Record Result := mkResult {
  ret : bool;
  trace : list Event
}.

Definition record_with_vad (c : Caps) (env : Env) : Result :=
  if open_ok env then
    match run_loop c env with
    | (st, evs, _) =>
      let body :=
        [EOpen true; EPrint MsgListening; ENotify NoteListening]
          ++ evs
          ++ (if max_frames c <=? total_frames st then [EPrint MsgMaxTime] else [])
          ++ release_stream in
      match frames st with
      | [] => {| ret := false; trace := body ++ [EPrint MsgNoSpeech] |}
      | _ :: _ =>
        if write_ok env then
          {| ret := true;
             trace := body ++ [EWriteWav (wav_payload (frames st)) true] |}
        else
          {| ret := false;
             trace := body ++ [EWriteWav (wav_payload (frames st)) false;
                               EPrint MsgWriteError] |}
      end
    end
  else
    {| ret := false; trace := [EOpen false; EPrint MsgOpenError; ETerminate] |}.

(** The frames successfully read by the first [n] calls of [stream.read]. *)
Fixpoint captured (env : Env) (n : nat) : list Frame :=
  match n with
  | 0 => []
  | S n' =>
    captured env n' ++
      match dev_read env n' with
      | Some f => [f]
      | None => []
      end
  end.

(** The states in which the loop condition is evaluated. *)
Inductive Reachable (c : Caps) (env : Env) : LoopState -> Prop :=
| Reachable_init : Reachable c env initial_state
| Reachable_step : forall st frame st' evs,
    Reachable c env st ->
    total_frames st < max_frames c ->
    dev_read env (total_frames st) = Some frame ->
    process_frame c env st frame = (st', evs, false) ->
    Reachable c env st'.

(** ** The loop invariant *)

Section Invariant.

Variable c : Caps.
Variable env : Env.

(** What holds of the local variables each time the loop condition is
    evaluated, and still holds after a [break]. *)
Record Inv (st : LoopState) : Prop := mkInv {
  inv_captured : length (captured env (total_frames st)) = total_frames st;
  inv_total : total_frames st <= max_frames c;
  inv_pre_len : length (pre_speech_buffer st) <= padding_frames c;
  inv_ring_len : length (ring_buffer st) <= ring_maxlen c;
  inv_armed :
    triggered st = false ->
    frames st = [] /\ ring_buffer st = [] /\ voiced_frames st < 3 /\
    voiced_frames st <= total_frames st /\
    pre_speech_buffer st
    = skipn (total_frames st - padding_frames c) (captured env (total_frames st));
  inv_recording :
    triggered st = true ->
    exists k rec,
      k <= total_frames st /\
      frames st = skipn k (captured env (total_frames st)) /\
      frames st = pre_speech_buffer st ++ rec /\
      length (ring_buffer st) = Nat.min (ring_maxlen c) (length rec) /\
      voiced_frames st = 0 /\
      Nat.min (padding_frames c) 3 <= length (pre_speech_buffer st)
}.

(** How a run ends: at the loop condition, at a failed read, or at the
    [break] of the silence check. *)
Definition Ended (st : LoopState) (ex : LoopExit) : Prop :=
  match ex with
  | ExitCap => Reachable c env st /\ total_frames st = max_frames c
  | ExitReadError =>
    Reachable c env st /\ total_frames st < max_frames c /\
    dev_read env (total_frames st) = None
  | ExitSilence =>
    exists st0 f evs,
      Reachable c env st0 /\ total_frames st0 < max_frames c /\
      dev_read env (total_frames st0) = Some f /\
      process_frame c env st0 f = (st, evs, true)
  end.

End Invariant.

(** The state in which the loop condition is evaluated for the [n]-th time
    (counting from 0), as long as the loop is still running then. *)
Fixpoint state_at (c : Caps) (env : Env) (n : nat) : LoopState :=
  match n with
  | 0 => initial_state
  | S n' =>
    let st := state_at c env n' in
    match dev_read env (total_frames st) with
    | Some f => fst (fst (process_frame c env st f))
    | None => st
    end
  end.

(** Whether the loop is still running when it has gone [n] times through
    its body. *)
Fixpoint runs_to (c : Caps) (env : Env) (n : nat) : bool :=
  match n with
  | 0 => true
  | S n' =>
    let st := state_at c env n' in
    runs_to c env n' && (total_frames st <? max_frames c) &&
    match dev_read env (total_frames st) with
    | Some f => negb (snd (process_frame c env st f))
    | None => false
    end
  end.

(** ** Reading traces *)

Definition is_read (e : Event) : bool :=
  match e with ERead _ _ => true | _ => false end.

Definition is_release (e : Event) : bool :=
  match e with EStopStream | ECloseStream | ETerminate => true | _ => false end.

Definition is_write (e : Event) : bool :=
  match e with EWriteWav _ _ => true | _ => false end.

(** Calls on the stream or on the PyAudio instance. *)
Definition uses_device (e : Event) : bool :=
  match e with
  | EOpen _ | ERead _ _ | EStopStream | ECloseStream | ETerminate => true
  | _ => false
  end.

(** The events a pass through the loop can produce. *)
Definition in_loop (e : Event) : bool :=
  match e with
  | ERead _ _ | ENotify _ => true
  | EPrint MsgReadError | EPrint MsgRecording | EPrint MsgSilence => true
  | _ => false
  end.

Definition printed (m : Msg) (tr : list Event) : Prop := In (EPrint m) tr.

(** The statements after the [finally] block, as a function of the final
    loop state: the return value and the events. *)
Definition after_release (env : Env) (st : LoopState) : bool * list Event :=
  match frames st with
  | [] => (false, [EPrint MsgNoSpeech])
  | _ :: _ =>
    if write_ok env
    then (true, [EWriteWav (wav_payload (frames st)) true])
    else (false, [EWriteWav (wav_payload (frames st)) false; EPrint MsgWriteError])
  end.

(** [if total_frames >= max_frames: print(...)] *)
Definition cap_message (c : Caps) (st : LoopState) : list Event :=
  if max_frames c <=? total_frames st then [EPrint MsgMaxTime] else [].

(** The same world with another classifier. *)
Definition with_vad (env : Env) (v : nat -> Frame -> option bool) : Env :=
  {| open_ok := open_ok env; dev_read := dev_read env;
     vad_is_speech := v; write_ok := write_ok env |}.

(** Two classifiers that differ only in raising where the other answers
    non-speech. *)
Definition same_verdicts (v v' : nat -> Frame -> option bool) : Prop :=
  forall i f, is_speech_of (v i f) = is_speech_of (v' i f).

(** ** Properties as the specification words them, where the code differs *)

(** A failed read leaves no output: the call returns [False] and nothing is
    written. *)
Definition read_failure_leaves_no_output (c : Caps) (env : Env) : Prop :=
  loop_exit c env = ExitReadError ->
  ret (record_with_vad c env) = false /\
  forallb (fun e => negb (is_write e)) (trace (record_with_vad c env)) = true.

(** A failed write reaches the caller as something else than the no-speech
    outcome: [env_w] is a run whose write fails, [env_n] a run without
    speech. *)
Definition write_failure_is_distinct (c : Caps) (env_w env_n : Env) : Prop :=
  frames (final_state c env_w) <> [] -> write_ok env_w = false ->
  frames (final_state c env_n) = [] ->
  ret (record_with_vad c env_w) <> ret (record_with_vad c env_n).







(** ** Sample worlds *)

(** The [i]-th frame of the sample device: [i + 1] bytes, so that frames
    read at different times differ. *)
Definition tone (i : nat) : Frame := repeat x01 (S i).

(** A device that delivers [reads] frames and then fails, a classifier that
    answers [speech i] on the [i]-th frame, and a write that succeeds or
    not. *)
Definition sample_env (speech : nat -> bool) (reads : nat) (wr : bool) : Env :=
  {| open_ok := true;
     dev_read := fun i => if i <? reads then Some (tone i) else None;
     vad_is_speech := fun i _ => Some (speech i);
     write_ok := wr |}.

Definition small_caps : Caps :=
  {| ring_maxlen := 5; padding_frames := 2; max_frames := 12 |}.

(** A ring of 20 classifications, of which fewer than 2 must be voiced for
    the recording to stop. *)
Definition wide_caps : Caps :=
  {| ring_maxlen := 20; padding_frames := 2; max_frames := 40 |}.

(** ** What the classifier said, frame by frame *)

(** The classification the loop uses for the [i]-th frame read: the answer
    of [vad.is_speech], or [False] when it raises. *)
Definition verdict (env : Env) (i : nat) : bool :=
  match dev_read env i with
  | Some f => is_speech_of (vad_is_speech env i f)
  | None => false
  end.

(** The classifications of the first [n] frames, in reading order. *)
Definition verdicts (env : Env) (n : nat) : list bool :=
  map (verdict env) (seq 0 n).

(** Frames [t], [t+1] and [t+2] were all classified as speech. *)
Definition voiced_triple (env : Env) (t : nat) : bool :=
  verdict env t && verdict env (S t) && verdict env (S (S t)).

(** How the local variables relate to the classifications so far: while
    ARMED no voiced triple has been completed and [voiced_frames] is the
    length of the run of voiced frames just read; once RECORDING, [t] is
    where the first voiced triple starts, [frames] begins [padding_frames]
    frames before the end of that triple, and the ring holds the most
    recent classifications made since. *)
Record Story (c : Caps) (env : Env) (st : LoopState) : Prop := mkStory {
  story_armed :
    triggered st = false ->
    (forall t, t + 3 <= total_frames st -> voiced_triple env t = false) /\
    (1 <= voiced_frames st -> verdict env (total_frames st - 1) = true) /\
    (2 <= voiced_frames st -> verdict env (total_frames st - 2) = true) /\
    (voiced_frames st < total_frames st ->
     verdict env (total_frames st - 1 - voiced_frames st) = false);
  story_recording :
    triggered st = true ->
    exists t,
      t + 3 <= total_frames st /\
      voiced_triple env t = true /\
      (forall t', t' < t -> voiced_triple env t' = false) /\
      frames st
      = skipn (t + 3 - padding_frames c) (captured env (total_frames st)) /\
      ring_buffer st
      = skipn (length (skipn (t + 3) (verdicts env (total_frames st)))
               - ring_maxlen c)
              (skipn (t + 3) (verdicts env (total_frames st)))
}.

(** ** Text: the string operations of [slugify] and [transcribe_audio] *)

(** A Python [str] is modelled by a [string] with one [ascii] per character;
    this is faithful for ASCII text, which the properties below assume
    ([ascii_text]): [str.lower] and [str.strip] treat other characters by
    the Unicode tables. *)
Module Text.
Import Ascii String.
Local Open Scope string_scope.
Local Open Scope nat_scope.

Fixpoint all_chars (p : ascii -> bool) (s : string) : bool :=
  match s with
  | EmptyString => true
  | String ch rest => p ch && all_chars p rest
  end.

Definition is_ascii_char (ch : ascii) : bool := nat_of_ascii ch <? 128.

Definition ascii_text (s : string) : Prop := all_chars is_ascii_char s = true.

Definition is_upper (ch : ascii) : bool :=
  (65 <=? nat_of_ascii ch) && (nat_of_ascii ch <=? 90).

Definition lower_char (ch : ascii) : ascii :=
  if is_upper ch then ascii_of_nat (nat_of_ascii ch + 32) else ch.

(** [s.lower()] *)
Fixpoint str_lower (s : string) : string :=
  match s with
  | EmptyString => EmptyString
  | String ch rest => String (lower_char ch) (str_lower rest)
  end.

(** [s.replace(old, new)] for a non-empty [old]: occurrences are found from
    left to right and do not overlap; [skip] counts the characters of the
    current occurrence still to be passed over. *)
Fixpoint replace_from (old new : string) (skip : nat) (s : string) : string :=
  match s with
  | EmptyString => EmptyString
  | String ch rest =>
    match skip with
    | S skip' => replace_from old new skip' rest
    | 0 =>
      if prefix old s
      then new ++ replace_from old new (length old - 1) rest
      else String ch (replace_from old new 0 rest)
    end
  end.

(** [s.replace('', new)]: [new] before every character and at the end. *)
Fixpoint replace_empty (new : string) (s : string) : string :=
  match s with
  | EmptyString => new
  | String ch rest => new ++ String ch (replace_empty new rest)
  end.

Definition str_replace (old new s : string) : string :=
  match old with
  | EmptyString => replace_empty new s
  | String _ _ => replace_from old new 0 s
  end.

Fixpoint mem_char (ch : ascii) (chars : string) : bool :=
  match chars with
  | EmptyString => false
  | String ch' rest => Ascii.eqb ch ch' || mem_char ch rest
  end.

(** [s.translate(str.maketrans('', '', chars))]: every character of
    [chars] is deleted. *)
Fixpoint str_delete (chars s : string) : string :=
  match s with
  | EmptyString => EmptyString
  | String ch rest =>
    if mem_char ch chars then str_delete chars rest
    else String ch (str_delete chars rest)
  end.

Definition dquote : ascii := ascii_of_nat 34.

(** The characters [slugify] deletes: the third argument of
    [str.maketrans]. *)
Definition deleted : string :=
  "!@#$%^&*()+=[]{}|;:'" ++ String dquote ",.<>?/\`~".

Definition slugify (text : string) : string :=
  str_delete deleted (str_replace " " "-" (str_lower text)).

(** [str.isspace] on ASCII characters: tab, line feed, vertical tab, form
    feed, carriage return, the four separators 28 to 31, and space. *)
Definition is_space (ch : ascii) : bool :=
  let n := nat_of_ascii ch in
  ((9 <=? n) && (n <=? 13)) || ((28 <=? n) && (n <=? 32)).

Fixpoint lstrip (s : string) : string :=
  match s with
  | EmptyString => EmptyString
  | String ch rest => if is_space ch then lstrip rest else s
  end.

Fixpoint rstrip (s : string) : string :=
  match s with
  | EmptyString => EmptyString
  | String ch rest =>
    match rstrip rest with
    | EmptyString => if is_space ch then EmptyString else String ch EmptyString
    | String ch' rest' => String ch (String ch' rest')
    end
  end.

(** [s.strip()] *)
Definition strip (s : string) : string := rstrip (lstrip s).

Fixpoint map_chars (f : ascii -> ascii) (s : string) : string :=
  match s with
  | EmptyString => EmptyString
  | String ch rest => String (f ch) (map_chars f rest)
  end.

(** What one character of the title contributes to the slug. *)
Definition slug_of_char (ch : ascii) : string :=
  let low := lower_char ch in
  let dashed := if Ascii.eqb low " " then "-"%char else low in
  if mem_char dashed deleted then EmptyString else String dashed EmptyString.

(** The characters a slug is made of. *)
Definition slug_char (ch : ascii) : bool :=
  negb (is_upper ch) && negb (Ascii.eqb ch " ") && negb (mem_char ch deleted).

End Text.

(** ** Temporary files: [cleanup_temp_files] and the path [transcribe_audio] reads *)

Module Files.
Import Ascii String Text.
Local Open Scope string_scope.
Local Open Scope nat_scope.

(** The paths that exist. *)
Definition Disk := list string.

(** [os.path.exists(path)] *)
Definition path_exists (disk : Disk) (path : string) : bool :=
  existsb (String.eqb path) disk.

(** The disk after a successful [os.remove(path)]. *)
Definition remove (disk : Disk) (path : string) : Disk :=
  filter (fun p => negb (String.eqb path p)) disk.

(** The extensions [cleanup_temp_files] goes through. *)
Definition temp_extensions : list string :=
  [".wav"; ".txt"; ".srt"; ".vtt"; ".json"].

(** [base_path.replace(".wav", ext)] *)
Definition sibling (base_path ext : string) : string :=
  str_replace ".wav" ext base_path.

(** The paths [cleanup_temp_files(base_path)] looks at. *)
Definition temp_candidates (base_path : string) : list string :=
  map (sibling base_path) temp_extensions.

(** One pass of the loop of [cleanup_temp_files]: [removable] tells for
    which paths [os.remove] succeeds; where it raises, the error is
    swallowed and the disk stays as it is. *)
Definition cleanup_one (removable : string -> bool) (base_path : string)
           (disk : Disk) (ext : string) : Disk :=
  let temp_file := sibling base_path ext in
  if path_exists disk temp_file then
    if removable temp_file then remove disk temp_file else disk
  else disk.

Definition cleanup_temp_files (removable : string -> bool) (base_path : string)
           (disk : Disk) : Disk :=
  fold_left (cleanup_one removable base_path) temp_extensions disk.

(** [txt_file = audio_path.replace(".wav", ".txt")] in [transcribe_audio]. *)
Definition txt_file (audio_path : string) : string :=
  str_replace ".wav" ".txt" audio_path.

(** The string without its first [k] characters. *)
Fixpoint drop (k : nat) (s : string) : string :=
  match k, s with
  | 0, _ => s
  | S _, EmptyString => EmptyString
  | S k', String _ rest => drop k' rest
  end.

End Files.

(** ** The tools: [list_tools], [transcribe_audio] and [call_tool] *)

Module Tool.
Import Ascii String Text Files.
Local Open Scope string_scope.
Local Open Scope nat_scope.

(** One entry of [list_tools]: name, description, the properties of the
    input schema (name, type, description) and the required ones. *)
Record ToolSpec := mkToolSpec {
  tool_name : string;
  description : string;
  properties : list (string * (string * string));
  required : list string
}.

Definition list_tools : list ToolSpec :=
  [ {| tool_name := "record_voice_note";
       description :=
         "Record a voice note, transcribe it with Whisper, and save to the vault inbox. "
         ++ "This is a blocking call - it starts recording immediately and automatically stops "
         ++ "when silence is detected. Use when the user wants to capture thoughts by speaking.";
       properties :=
         [("title",
           ("string",
            "Title for the voice note (used in filename). If not provided, uses timestamp."))];
       required := [] |};
    {| tool_name := "listen";
       description :=
         "Record voice and return the transcription as input for processing. "
         ++ "Use this when the user wants to speak their request instead of typing. "
         ++ "Starts recording immediately and stops automatically when silence is detected. "
         ++ "The transcribed text is returned for Claude to process and respond to.";
       properties := [];
       required := [] |} ].

(** [arguments.get(key, default)] for a dict with string values. *)
Fixpoint dict_get (d : list (string * string)) (key default : string) : string :=
  match d with
  | [] => default
  | (k, v) :: rest => if String.eqb k key then v else dict_get rest key default
  end.

(** The truth value of a [str]: the empty string is false. *)
Definition truthy (s : string) : bool :=
  match s with
  | EmptyString => false
  | String _ _ => true
  end.

(** What reading the transcript file gives: it is not there, opening or
    reading it raises, or it has a content. *)
Inductive TxtRead :=
| TxtMissing
| TxtUnreadable
| TxtContent (text : string).

(** What one call of [call_tool] meets outside the program. *)
Record World := mkWorld {
  inbox_dir : string;                 (* str(INBOX_DIR) *)
  inbox_exists : bool;                (* INBOX_DIR.exists() *)
  note_exists : string -> bool;       (* (INBOX_DIR / filename).exists() *)
  now_stamp : string;                 (* datetime.now().strftime('%Y-%m-%d-%H%M%S') *)
  mkstemp : string;                   (* the path made by tempfile.mkstemp(suffix=".wav") *)
  microphone : Env;                   (* what record_with_vad meets *)
  audio_size : option nat;            (* os.path.getsize(temp_audio); None: no such file *)
  whisper_ok : bool;                  (* subprocess.run(..., check=True, timeout=120) returns *)
  txt_at : string -> TxtRead;         (* the transcript file at a path *)
  write_text_error : option string    (* str(e) when output_file.write_text raises *)
}.

(** What [call_tool] does outside the program, in order. *)
Inductive ToolEvent :=
| TMkstemp (path : string)
| TRecord (audio_path : string) (r : Result)   (* record_with_vad(temp_audio) *)
| TWhisper (audio_path : string) (ok : bool)   (* subprocess.run([whisper, audio_path, ...]) *)
| TReadTxt (path : string)                     (* open(txt_file).read() *)
| TCleanup (base_path : string)                (* cleanup_temp_files(temp_audio) *)
| TWriteText (filename : string) (text : string) (ok : bool).

Definition transcribe_audio (w : World) (audio_path : string)
  : list ToolEvent * option string :=
  if whisper_ok w then
    match txt_at w (txt_file audio_path) with
    | TxtMissing => ([TWhisper audio_path true], None)
    | TxtUnreadable =>
      ([TWhisper audio_path true; TReadTxt (txt_file audio_path)], None)
    | TxtContent text =>
      ([TWhisper audio_path true; TReadTxt (txt_file audio_path)],
       Some (strip text))
    end
  else ([TWhisper audio_path false], None).

(** [not os.path.exists(temp_audio) or os.path.getsize(temp_audio) < 1000] *)
Definition audio_too_short (w : World) : bool :=
  match audio_size w with
  | None => true
  | Some n => n <? 1000
  end.

Definition newline : string := String (ascii_of_nat 10) EmptyString.

(** The handler of both tools.  The result is what was done and the text of
    the one [TextContent] returned.  Lines printed to stderr are left out;
    of the operations inside the [try], only [output_file.write_text] is
    taken to raise. *)
Definition call_tool (c : Caps) (w : World) (name : string)
           (arguments : list (string * string)) : list ToolEvent * string :=
  if String.eqb name "record_voice_note" then
    if negb (inbox_exists w) then
      ([], "Error: Inbox directory not found at " ++ inbox_dir w
           ++ ". Check VAULT_DIR environment variable.")
    else
      let title := dict_get arguments "title" "" in
      let filename :=
        if truthy title then "voice-" ++ slugify title ++ ".md"
        else "voice-" ++ now_stamp w ++ ".md" in
      if note_exists w filename then
        ([], "Error: File already exists: " ++ filename
             ++ ". Use a different title.")
      else
        let temp_audio := mkstemp w in
        let r := record_with_vad c (microphone w) in
        if negb (ret r) then
          ([TMkstemp temp_audio; TRecord temp_audio r; TCleanup temp_audio],
           "Error: No speech detected or recording failed.")
        else if audio_too_short w then
          ([TMkstemp temp_audio; TRecord temp_audio r; TCleanup temp_audio],
           "Error: No audio captured or recording too short.")
        else
          let (heard, transcription) := transcribe_audio w temp_audio in
          let failed :=
            (([TMkstemp temp_audio; TRecord temp_audio r] ++ heard
               ++ [TCleanup temp_audio])%list,
             "Error: Transcription failed or no speech detected.") in
          match transcription with
          | None => failed
          | Some text =>
            if truthy text then
              match write_text_error w with
              | None =>
                (([TMkstemp temp_audio; TRecord temp_audio r] ++ heard
                   ++ [TCleanup temp_audio; TWriteText filename text true])%list,
                 "Voice note saved to inbox/" ++ filename ++ newline ++ newline
                   ++ "--- Transcription ---" ++ newline ++ text)
              | Some e =>
                (([TMkstemp temp_audio; TRecord temp_audio r] ++ heard
                   ++ [TCleanup temp_audio; TWriteText filename text false;
                       TCleanup temp_audio])%list,
                 "Error: " ++ e)
              end
            else failed
          end
  else if String.eqb name "listen" then
    let temp_audio := mkstemp w in
    let r := record_with_vad c (microphone w) in
    if negb (ret r) then
      ([TMkstemp temp_audio; TRecord temp_audio r; TCleanup temp_audio],
       "Error: No speech detected or recording failed.")
    else if audio_too_short w then
      ([TMkstemp temp_audio; TRecord temp_audio r; TCleanup temp_audio],
       "Error: No audio captured or recording too short.")
    else
      let (heard, transcription) := transcribe_audio w temp_audio in
      let failed :=
        (([TMkstemp temp_audio; TRecord temp_audio r] ++ heard
           ++ [TCleanup temp_audio])%list,
         "Error: Transcription failed or no speech detected.") in
      match transcription with
      | None => failed
      | Some text =>
        if truthy text then
          (([TMkstemp temp_audio; TRecord temp_audio r] ++ heard
             ++ [TCleanup temp_audio])%list,
           "[Voice input from user]: " ++ text)
        else failed
      end
  else ([], "Unknown tool: " ++ name).

(** The name [call_tool] gives the note. *)
Definition note_filename (w : World) (arguments : list (string * string)) : string :=
  let title := dict_get arguments "title" "" in
  if truthy title then "voice-" ++ slugify title ++ ".md"
  else "voice-" ++ now_stamp w ++ ".md".

(** The checks of [record_voice_note] before anything is recorded pass. *)
Definition vault_ready (w : World) (arguments : list (string * string)) : Prop :=
  inbox_exists w = true /\ note_exists w (note_filename w arguments) = false.

(** Events that use the temporary files. *)
Definition uses_temp (e : ToolEvent) : bool :=
  match e with
  | TRecord _ _ | TWhisper _ _ | TReadTxt _ => true
  | _ => false
  end.

Definition is_note_write (e : ToolEvent) : bool :=
  match e with
  | TWriteText _ _ _ => true
  | _ => false
  end.

(** A sample world: three voiced frames then silence, a transcript on
    disk. *)
Definition sample_world (transcript : TxtRead) (write_error : option string) : World :=
  {| inbox_dir := "/vault/inbox";
     inbox_exists := true;
     note_exists := fun _ => false;
     now_stamp := "2025-01-31-120000";
     mkstemp := "/tmp/tmpab12.wav";
     microphone := sample_env (fun i => i <? 3) 12 true;
     audio_size := Some 4844;
     whisper_ok := true;
     txt_at := fun _ => transcript;
     write_text_error := write_error |}.

End Tool.

(** ** Frame sizes *)

(** The sample rates and frame durations webrtcvad accepts, as the comments
    on [SAMPLE_RATE] and [FRAME_DURATION_MS] list them. *)
Definition supported_rates : list Z := [8000; 16000; 32000; 48000]%Z.

Definition supported_durations : list Z := [10; 20; 30]%Z.

(** The constants of the server with another rate and frame duration. *)
Definition config_with (rate duration : Z) : Conversion.Config :=
  {| Conversion.SAMPLE_RATE := rate;
     Conversion.FRAME_DURATION_MS := duration;
     Conversion.SILENCE_TIMEOUT_SEC := {| Conversion.digits := 15;
                                          Conversion.places := 1 |};
     Conversion.SPEECH_PAD_SEC := {| Conversion.digits := 3;
                                     Conversion.places := 1 |};
     Conversion.MAX_RECORDING_SEC := 300 |}.

(** A device whose frames all have [size] bytes (paInt16 mono: two bytes per
    sample), with [reads] frames before it fails. *)
Definition pcm_env (size : nat) (speech : nat -> bool) (reads : nat) : Env :=
  {| open_ok := true;
     dev_read := fun i => if i <? reads then Some (repeat x00 size) else None;
     vad_is_speech := fun i _ => Some (speech i);
     write_ok := true |}.

(** Reduce projections of explicit states, and nothing else. *)
Ltac state_simpl :=
  cbn [frames ring_buffer triggered voiced_frames total_frames
       pre_speech_buffer count_frame negb fst snd] in *.

(** Split on every condition of a conditional in the goal. *)
Ltac split_ifs :=
  repeat match goal with
         | |- context [if ?x then _ else _] => destruct x eqn:?
         end.


(** Decide a fact about every kind of event. *)
Ltac by_cases_on_event :=
  let e := fresh "e" in
  intros e; destruct e as [| | | | |[]| |]; cbn; congruence.

(** ** Facts about bounded deques *)

Module DequeFacts.

Lemma tl_skipn {A : Type} (k : nat) (l : list A) :
  tl (skipn k l) = skipn (S k) l.
Proof.
  revert l; induction k as [|k IH]; intros [|a l]; simpl; auto.
Qed.

Lemma append_room {A : Type} (n : nat) (d : list A) (x : A) :
  length d < n -> Deque.append n d x = d ++ [x].
Proof.
  intros H. unfold Deque.append.
  destruct (Nat.ltb_spec n (length (d ++ [x]))) as [Hlt|Hge]; auto.
  rewrite length_app in Hlt; simpl in Hlt; lia.
Qed.

Lemma append_full {A : Type} (n : nat) (d : list A) (x : A) :
  length d = n -> Deque.append n d x = tl (d ++ [x]).
Proof.
  intros H. unfold Deque.append.
  destruct (Nat.ltb_spec n (length (d ++ [x]))) as [Hlt|Hge]; auto.
  rewrite length_app in Hge; simpl in Hge; lia.
Qed.

Lemma append_evicts_oldest {A : Type} (n : nat) (o : A) (d : list A) (x : A) :
  length (o :: d) = n -> Deque.append n (o :: d) x = d ++ [x].
Proof.
  intros H. rewrite append_full by assumption. reflexivity.
Qed.

Lemma length_append {A : Type} (n : nat) (d : list A) (x : A) :
  length d <= n -> length (Deque.append n d x) = Nat.min n (S (length d)).
Proof.
  intros H. unfold Deque.append.
  destruct (Nat.ltb_spec n (length (d ++ [x]))) as [Hlt|Hge];
    rewrite length_app in *; simpl in *.
  - destruct d as [|a d]; simpl in *; [lia|].
    rewrite length_app; simpl. lia.
  - lia.
Qed.

Lemma length_append_le {A : Type} (n : nat) (d : list A) (x : A) :
  length d <= n -> length (Deque.append n d x) <= n.
Proof.
  intros H. rewrite length_append by assumption. lia.
Qed.

(** A deque that holds the last [n] items of a history keeps doing so. *)
Lemma append_window {A : Type} (n : nat) (l : list A) (x : A) :
  Deque.append n (skipn (length l - n) l) x
  = skipn (length (l ++ [x]) - n) (l ++ [x]).
Proof.
  unfold Deque.append.
  assert (Happ : skipn (length l - n) l ++ [x] = skipn (length l - n) (l ++ [x])).
  { rewrite skipn_app.
    replace (length l - n - length l) with 0 by lia. reflexivity. }
  rewrite Happ, length_skipn, !length_app. simpl.
  destruct (Nat.ltb_spec n (length l + 1 - (length l - n))) as [Hlt|Hge].
  - rewrite tl_skipn. f_equal. lia.
  - f_equal. lia.
Qed.

End DequeFacts.

(** ** The loop invariant holds *)

Section InvariantFacts.

Variable c : Caps.
Variable env : Env.

Lemma Inv_initial : Inv c env initial_state.
Proof.
  constructor; simpl; try lia; try discriminate.
  intros _. repeat split; auto.
Qed.

Lemma on_frame_total (st : LoopState) (f : Frame) (b : bool) :
  total_frames (fst (fst (on_frame c st f b))) = total_frames st.
Proof.
  unfold on_frame. split_ifs; reflexivity.
Qed.

Lemma process_frame_total (st : LoopState) (f : Frame) :
  total_frames (fst (fst (process_frame c env st f))) = S (total_frames st).
Proof.
  unfold process_frame. rewrite on_frame_total. reflexivity.
Qed.

Lemma Inv_process_frame (st : LoopState) (f : Frame) :
  Inv c env st ->
  total_frames st < max_frames c ->
  dev_read env (total_frames st) = Some f ->
  Inv c env (fst (fst (process_frame c env st f))).
Proof.
  intros [Hcap Htot Hpre Hring Harmed Hrec] Hlt Hread.
  unfold process_frame.
  set (b := is_speech_of _). clearbody b.
  assert (Hcap' : captured env (S (total_frames st))
                  = captured env (total_frames st) ++ [f]).
  { simpl. rewrite Hread. reflexivity. }
  assert (Hlen' : length (captured env (S (total_frames st))) = S (total_frames st)).
  { rewrite Hcap', length_app, Hcap. simpl. lia. }
  unfold on_frame.
  destruct (triggered st) eqn:Htrig; state_simpl; rewrite Htrig; state_simpl.
  - (* RECORDING *)
    destruct (Hrec eq_refl) as (k & rec & Hk & Hfr & Hsplit & Hrl & Hv & Hp3).
    assert (Hgoal : Inv c env
      {| frames := frames st ++ [f];
         ring_buffer := Deque.append (ring_maxlen c) (ring_buffer st) b;
         triggered := true; voiced_frames := voiced_frames st;
         total_frames := S (total_frames st);
         pre_speech_buffer := pre_speech_buffer st |}).
    { constructor; state_simpl; auto.
      - apply DequeFacts.length_append_le; assumption.
      - discriminate.
      - intros _. exists k, (rec ++ [f]). repeat split; auto.
        + rewrite Hcap', skipn_app, Hcap, Hfr.
          replace (k - total_frames st) with 0 by lia. reflexivity.
        + rewrite Hsplit at 1. rewrite app_assoc. reflexivity.
        + rewrite DequeFacts.length_append by assumption.
          rewrite Hrl, length_app. unfold Frame in *. simpl. lia. }
    split_ifs; exact Hgoal.
  - (* ARMED *)
    destruct (Harmed eq_refl) as (Hfr & Hrb & Hv & Hvt & Hwin).
    assert (Hwin' :
      Deque.append (padding_frames c) (pre_speech_buffer st) f
      = skipn (S (total_frames st) - padding_frames c)
              (captured env (S (total_frames st)))).
    { pose proof (DequeFacts.append_window (padding_frames c)
                    (captured env (total_frames st)) f) as W.
      rewrite length_app, Hcap in W. cbn [length] in W.
      rewrite Hwin, Hcap', W. f_equal. lia. }
    assert (Hplen : length (Deque.append (padding_frames c) (pre_speech_buffer st) f)
                    <= padding_frames c).
    { apply DequeFacts.length_append_le; assumption. }
    assert (Hplen' : length (Deque.append (padding_frames c) (pre_speech_buffer st) f)
                     = Nat.min (padding_frames c) (S (total_frames st))).
    { rewrite Hwin', length_skipn, Hlen'. lia. }
    destruct b; [destruct (Nat.leb_spec 3 (S (voiced_frames st)))|];
      constructor; state_simpl; auto; try discriminate; try lia.
    + intros _.
      exists (S (total_frames st) - padding_frames c), [].
      rewrite Hfr, Hrb. cbn [app length]. rewrite app_nil_r.
      repeat split; auto; lia.
    + intros _. repeat split; auto; lia.
    + intros _. repeat split; auto; lia.
Qed.

(** The loop always ends: with more fuel than frames left before the cap,
    [while_loop] returns, and returns what [loop] computes. *)
Lemma while_loop_terminates (fuel : nat) (st : LoopState) :
  max_frames c - total_frames st < fuel ->
  while_loop c env fuel st = Some (loop c env (max_frames c - total_frames st) st).
Proof.
  revert st. induction fuel as [|fuel IH]; intros st Hfuel; [lia|].
  cbn [while_loop].
  destruct (Nat.ltb_spec (total_frames st) (max_frames c)) as [Hlt|Hge].
  - destruct (max_frames c - total_frames st) as [|k] eqn:Hk; [lia|].
    cbn [loop].
    destruct (dev_read env (total_frames st)) as [f|]; [|reflexivity].
    pose proof (process_frame_total st f) as Htot.
    destruct (process_frame c env st f) as [[st' evs] brk]. cbn [fst] in Htot.
    destruct brk; [reflexivity|].
    rewrite IH by lia.
    replace (max_frames c - total_frames st') with k by lia.
    destruct (loop c env k st') as [[st'' evs'] ex]. reflexivity.
  - replace (max_frames c - total_frames st) with 0 by lia. reflexivity.
Qed.

Lemma Reachable_Inv (st : LoopState) : Reachable c env st -> Inv c env st.
Proof.
  induction 1 as [|st f st' evs _ IH Hlt Hread Hstep].
  - apply Inv_initial.
  - pose proof (Inv_process_frame IH Hlt Hread) as H.
    rewrite Hstep in H. exact H.
Qed.

Lemma Reachable_total_le (st : LoopState) :
  Reachable c env st -> total_frames st <= max_frames c.
Proof. intros H. apply Reachable_Inv in H. apply H. Qed.

Lemma loop_Ended (k : nat) (st : LoopState) :
  Reachable c env st ->
  total_frames st + k = max_frames c ->
  Ended c env (fst (fst (loop c env k st))) (snd (loop c env k st)).
Proof.
  revert st. induction k as [|k IH]; intros st Hreach Hk; simpl.
  - split; [assumption|lia].
  - destruct (dev_read env (total_frames st)) as [f|] eqn:Hread; simpl.
    + destruct (process_frame c env st f) as [[st' evs] brk] eqn:Hstep.
      destruct brk; simpl.
      * exists st, f, evs. repeat split; auto. lia.
      * assert (Hreach' : Reachable c env st').
        { eapply Reachable_step; eauto. lia. }
        assert (Htot : total_frames st' = S (total_frames st)).
        { pose proof (process_frame_total st f) as H.
          rewrite Hstep in H. exact H. }
        specialize (IH st' Hreach' ltac:(lia)).
        destruct (loop c env k st') as [[st'' evs'] ex]. exact IH.
    + repeat split; auto. lia.
Qed.

Lemma run_loop_Ended : Ended c env (final_state c env) (loop_exit c env).
Proof.
  unfold final_state, loop_exit, run_loop.
  apply loop_Ended; [constructor|simpl; lia].
Qed.

Lemma Ended_Inv (st : LoopState) (ex : LoopExit) : Ended c env st ex -> Inv c env st.
Proof.
  destruct ex; simpl.
  - intros [H _]. apply Reachable_Inv; assumption.
  - intros [H _]. apply Reachable_Inv; assumption.
  - intros (st0 & f & evs & Hreach & Hlt & Hread & Hstep).
    pose proof (Inv_process_frame (Reachable_Inv Hreach) Hlt Hread) as H.
    rewrite Hstep in H. exact H.
Qed.

Lemma final_state_Inv : Inv c env (final_state c env).
Proof. exact (Ended_Inv _ _ run_loop_Ended). Qed.

End InvariantFacts.

(** ** The events of a run *)

Section TraceFacts.

Variable c : Caps.
Variable env : Env.

Lemma on_frame_events (st : LoopState) (f : Frame) (b : bool) :
  forall st' evs brk,
    on_frame c st f b = (st', evs, brk) ->
    (evs = [] /\ brk = false) \/
    (evs = [EPrint MsgRecording; ENotify NoteRecording] /\ brk = false /\
     triggered st = false /\ triggered st' = true) \/
    (evs = [EPrint MsgSilence; ENotify NoteStopped] /\ brk = true).
Proof.
  intros st' evs brk. unfold on_frame.
  destruct (triggered st) eqn:Htrig; cbn [negb]; split_ifs;
    intros H; inversion H; subst; auto.
  right; left. auto.
Qed.

Lemma process_frame_events (st : LoopState) (f : Frame) :
  forall st' evs brk,
    process_frame c env st f = (st', evs, brk) ->
    forallb in_loop evs = true /\ filter is_read evs = [].
Proof.
  intros st' evs brk H. unfold process_frame in H.
  apply on_frame_events in H.
  destruct H as [[-> _]|[(-> & _)|(-> & _)]]; auto.
Qed.

Lemma record_with_vad_open :
  open_ok env = true ->
  trace (record_with_vad c env)
  = [EOpen true; EPrint MsgListening; ENotify NoteListening]
      ++ loop_events c env ++ cap_message c (final_state c env)
      ++ release_stream ++ snd (after_release env (final_state c env))
  /\ ret (record_with_vad c env) = fst (after_release env (final_state c env)).
Proof.
  intros Hopen. unfold record_with_vad, loop_events, final_state, after_release,
    cap_message.
  rewrite Hopen.
  destruct (run_loop c env) as [[st evs] ex]. cbn [fst snd].
  destruct (frames st) as [|f fs]; [|destruct (write_ok env)]; cbn [ret trace fst snd];
    split; try reflexivity;
    rewrite <- !app_assoc; reflexivity.
Qed.

Lemma record_with_vad_closed :
  open_ok env = false ->
  record_with_vad c env
  = {| ret := false; trace := [EOpen false; EPrint MsgOpenError; ETerminate] |}.
Proof.
  intros Hopen. unfold record_with_vad. rewrite Hopen. reflexivity.
Qed.

(** The reads of the loop: one successful read per counted frame, in order,
    then at most one failed read, which ends the loop. *)
Lemma loop_reads (k : nat) (st : LoopState) :
  let r := loop c env k st in
  let n := total_frames (fst (fst r)) in
  total_frames st <= n /\
  forallb in_loop (snd (fst r)) = true /\
  filter is_read (snd (fst r))
  = map (fun i => ERead i true) (seq (total_frames st) (n - total_frames st))
      ++ match snd r with
         | ExitReadError => [ERead n false]
         | _ => []
         end.
Proof.
  revert st. induction k as [|k IH]; intros st; cbn [loop].
  - cbn [fst snd]. rewrite Nat.sub_diag. auto.
  - destruct (dev_read env (total_frames st)) as [f|] eqn:Hread.
    + destruct (process_frame c env st f) as [[st' evs] brk] eqn:Hstep.
      pose proof (process_frame_total c env st f) as Htot.
      rewrite Hstep in Htot. cbn [fst] in Htot.
      destruct (process_frame_events _ _ Hstep) as [Hin Hnr].
      destruct brk.
      * cbn [fst snd]. rewrite Htot.
        replace (S (total_frames st) - total_frames st) with 1 by lia.
        cbn [forallb filter in_loop is_read andb seq map app].
        rewrite Hin, Hnr. auto.
      * specialize (IH st').
        destruct (loop c env k st') as [[st'' evs'] ex]. cbn [fst snd] in *.
        destruct IH as (Hle & Hall & Hreads).
        rewrite Htot in *.
        repeat split; [lia| |].
        -- cbn [forallb in_loop andb]. rewrite forallb_app, Hin, Hall. reflexivity.
        -- cbn [filter is_read]. rewrite filter_app, Hnr, Hreads. cbn [app].
           replace (total_frames st'' - total_frames st)
             with (S (total_frames st'' - S (total_frames st))) by lia.
           reflexivity.
    + cbn [fst snd]. rewrite Nat.sub_diag. auto.
Qed.

Lemma run_loop_reads :
  forallb in_loop (loop_events c env) = true /\
  filter is_read (loop_events c env)
  = map (fun i => ERead i true) (seq 0 (total_frames (final_state c env)))
      ++ match loop_exit c env with
         | ExitReadError => [ERead (total_frames (final_state c env)) false]
         | _ => []
         end.
Proof.
  unfold loop_events, final_state, loop_exit, run_loop.
  pose proof (loop_reads (max_frames c - total_frames initial_state) initial_state) as H.
  cbv zeta in H. cbn [total_frames initial_state] in *.
  rewrite !Nat.sub_0_r in *. destruct H as (_ & H1 & H2).
  split; assumption.
Qed.

End TraceFacts.

(** ** The two branches of the loop body *)

Section StepFacts.

Variable c : Caps.
Variable env : Env.

Lemma armed_window (st : LoopState) (f : Frame) :
  Inv c env st -> triggered st = false ->
  dev_read env (total_frames st) = Some f ->
  Deque.append (padding_frames c) (pre_speech_buffer st) f
  = skipn (S (total_frames st) - padding_frames c)
          (captured env (S (total_frames st))).
Proof.
  intros HI Htrig Hread.
  destruct (inv_armed HI Htrig) as (_ & _ & _ & _ & Hwin).
  pose proof (DequeFacts.append_window (padding_frames c)
                (captured env (total_frames st)) f) as W.
  rewrite length_app, (inv_captured HI) in W. cbn [length] in W.
  rewrite Hwin, W. cbn [captured]. rewrite Hread. f_equal. lia.
Qed.

Lemma on_frame_armed (st : LoopState) (f : Frame) (b : bool) :
  triggered st = false ->
  on_frame c st f b
  = let pre := Deque.append (padding_frames c) (pre_speech_buffer st) f in
    if b then
      if 3 <=? S (voiced_frames st) then
        ({| frames := frames st ++ pre; ring_buffer := ring_buffer st;
            triggered := true; voiced_frames := 0;
            total_frames := total_frames st; pre_speech_buffer := pre |},
         [EPrint MsgRecording; ENotify NoteRecording], false)
      else
        ({| frames := frames st; ring_buffer := ring_buffer st;
            triggered := false; voiced_frames := S (voiced_frames st);
            total_frames := total_frames st; pre_speech_buffer := pre |},
         [], false)
    else
      ({| frames := frames st; ring_buffer := ring_buffer st;
          triggered := false; voiced_frames := 0;
          total_frames := total_frames st; pre_speech_buffer := pre |},
       [], false).
Proof.
  intros Htrig. unfold on_frame. rewrite Htrig. reflexivity.
Qed.

Lemma on_frame_recording (st : LoopState) (f : Frame) (b : bool) :
  triggered st = true ->
  let rb := Deque.append (ring_maxlen c) (ring_buffer st) b in
  on_frame c st f b
  = ({| frames := frames st ++ [f]; ring_buffer := rb;
        triggered := true; voiced_frames := voiced_frames st;
        total_frames := total_frames st;
        pre_speech_buffer := pre_speech_buffer st |},
     if (length rb =? ring_maxlen c) && mostly_silent rb
     then [EPrint MsgSilence; ENotify NoteStopped] else [],
     (length rb =? ring_maxlen c) && mostly_silent rb).
Proof.
  intros Htrig rb. unfold on_frame. rewrite Htrig. cbn [negb]. fold rb.
  destruct (length rb =? ring_maxlen c); [destruct (mostly_silent rb)|];
    reflexivity.
Qed.

(** A [break] in the loop body comes from the recording branch only. *)
Lemma break_is_recording (st st' : LoopState) (f : Frame) (evs : list Event) :
  process_frame c env st f = (st', evs, true) -> triggered st = true.
Proof.
  unfold process_frame. destruct (triggered st) eqn:Htrig; auto.
  rewrite on_frame_armed by exact Htrig. cbv zeta.
  split_ifs; intros H; inversion H.
Qed.

Lemma loop_messages (k : nat) (st : LoopState) :
  let r := loop c env k st in
  (In (EPrint MsgSilence) (snd (fst r)) <-> snd r = ExitSilence) /\
  (In (EPrint MsgReadError) (snd (fst r)) <-> snd r = ExitReadError).
Proof.
  revert st. induction k as [|k IH]; intros st; cbn [loop].
  - cbn. split; split; (contradiction || discriminate).
  - destruct (dev_read env (total_frames st)) as [f|] eqn:Hread.
    + destruct (process_frame c env st f) as [[st' evs] brk] eqn:Hstep.
      pose proof Hstep as Hev. unfold process_frame in Hev.
      apply on_frame_events in Hev.
      destruct brk.
      * destruct Hev as [[_ ?]|[(_ & ? & _)|(-> & _)]]; try discriminate.
        cbn. split; split; intros H; auto; try discriminate.
        decompose [or] H; discriminate || contradiction.
      * specialize (IH st').
        destruct (loop c env k st') as [[st'' evs'] ex]. cbn [fst snd] in *.
        destruct IH as [IH1 IH2].
        destruct Hev as [[-> _]|[(-> & _)|(_ & ?)]]; try discriminate;
          cbn [In app]; split; split; intros H;
          try (apply IH1 in H || apply IH2 in H); auto;
          decompose [or] H; try discriminate; auto;
          try (apply IH1; assumption); try (apply IH2; assumption).
    + cbn. split; split; intros H; auto; try discriminate.
      decompose [or] H; discriminate || contradiction.
Qed.

End StepFacts.

(** ** Claims about the loop body *)

Lemma Reachable_state_at (c : Caps) (env : Env) (n : nat) :
  runs_to c env n = true -> Reachable c env (state_at c env n).
Proof.
  induction n as [|n IH]; cbn [runs_to state_at].
  - intros _. constructor.
  - intros H. apply andb_prop in H. destruct H as [H H3].
    apply andb_prop in H. destruct H as [H1 H2].
    apply Nat.ltb_lt in H2.
    destruct (dev_read env (total_frames (state_at c env n))) as [f|] eqn:Hread;
      [|discriminate].
    destruct (process_frame c env (state_at c env n) f) as [[st' evs] brk] eqn:Hstep.
    cbn [fst snd] in *. destruct brk; [discriminate|].
    eapply Reachable_step; eauto.
Qed.

(** C1: in the ARMED state ([triggered = False]) every incoming frame is
    appended to the pre-speech buffer and classified; a speech frame
    increments the consecutive-voiced counter, a non-speech frame resets it
    to 0, and when the counter reaches 3 the controller moves to RECORDING,
    extends the session's frames with the whole pre-speech buffer, which
    holds the most recent frames read in the order they were read, and
    resets the counter to 0. *)
Theorem armed_frame_step (c : Caps) (env : Env) (st : LoopState) (f : Frame) :
  Reachable c env st ->
  triggered st = false ->
  total_frames st < max_frames c ->
  dev_read env (total_frames st) = Some f ->
  let b := is_speech_of (vad_is_speech env (total_frames st) f) in
  let st' := fst (fst (process_frame c env st f)) in
  pre_speech_buffer st'
  = Deque.append (padding_frames c) (pre_speech_buffer st) f /\
  pre_speech_buffer st'
  = skipn (S (total_frames st) - padding_frames c)
          (captured env (S (total_frames st))) /\
  snd (process_frame c env st f) = false /\
  voiced_frames st < 3 /\
  (b = false ->
   voiced_frames st' = 0 /\ triggered st' = false /\ frames st' = frames st) /\
  (b = true -> S (voiced_frames st) < 3 ->
   voiced_frames st' = S (voiced_frames st) /\ triggered st' = false /\
   frames st' = frames st) /\
  (b = true -> S (voiced_frames st) = 3 ->
   triggered st' = true /\ voiced_frames st' = 0 /\
   frames st' = frames st ++ pre_speech_buffer st' /\
   frames st' = skipn (S (total_frames st) - padding_frames c)
                      (captured env (S (total_frames st)))).
Proof.
  intros Hreach Htrig Hlt Hread b st'.
  pose proof (Reachable_Inv Hreach) as HI.
  destruct (inv_armed HI Htrig) as (Hfr & _ & Hv & _ & _).
  pose proof (armed_window HI Htrig Hread) as Hwin.
  subst st'. unfold process_frame. fold b.
  rewrite on_frame_armed by exact Htrig. cbv zeta. state_simpl.
  destruct b.
  - destruct (Nat.leb_spec 3 (S (voiced_frames st))) as [Hge|Hlt3]; state_simpl;
      repeat split; auto; try discriminate; try lia.
    rewrite Hfr. exact Hwin.
  - state_simpl. repeat split; auto; discriminate.
Qed.

Lemma armed_frame_step_witness :
  let env := sample_env (fun _ => true) 12 true in
  let st := state_at small_caps env 2 in
  Reachable small_caps env st /\
  triggered st = false /\
  total_frames st < max_frames small_caps /\
  dev_read env (total_frames st) = Some (tone 2) /\
  let st' := fst (fst (process_frame small_caps env st (tone 2))) in
  triggered st' = true /\ voiced_frames st' = 0 /\
  frames st' = [tone 1; tone 2].
Proof.
  intros env st.
  assert (Hreach : Reachable small_caps env st)
    by (apply Reachable_state_at; reflexivity).
  assert (Hlt : total_frames st < max_frames small_caps) by (cbn; lia).
  pose proof (armed_frame_step Hreach eq_refl Hlt eq_refl) as H.
  cbv zeta in H. destruct H as (_ & _ & _ & _ & _ & _ & Htrg).
  destruct (Htrg eq_refl eq_refl) as (H1 & H2 & _ & H4).
  split; [exact Hreach|]. split; [reflexivity|]. split; [exact Hlt|].
  split; [reflexivity|].
  intros st'. split; [exact H1|]. split; [exact H2|exact H4].
Defined.

(** C2: in the RECORDING state ([triggered = True]) every incoming frame is
    appended to the session's frames and its classification pushed into the
    silence ring; the loop is left by the silence check exactly when the
    ring is full and less than 10% of its entries are voiced (ten times the
    number of [True] entries is below the length), which cannot happen
    before [ring_buffer.maxlen] frames have been recorded; a run that ends
    this way reports the silence and has captured speech. *)
Theorem recording_frame_step (c : Caps) (env : Env) :
  (forall st f,
      Reachable c env st ->
      triggered st = true ->
      total_frames st < max_frames c ->
      dev_read env (total_frames st) = Some f ->
      let b := is_speech_of (vad_is_speech env (total_frames st) f) in
      let st' := fst (fst (process_frame c env st f)) in
      frames st' = frames st ++ [f] /\
      ring_buffer st' = Deque.append (ring_maxlen c) (ring_buffer st) b /\
      triggered st' = true /\
      (snd (process_frame c env st f) = true <->
       length (ring_buffer st') = ring_maxlen c /\
       10 * count_occ bool_dec (ring_buffer st') true
       < length (ring_buffer st')) /\
      (length (ring_buffer st') = ring_maxlen c ->
       exists rec,
         frames st' = pre_speech_buffer st' ++ rec /\
         ring_maxlen c <= length rec)) /\
  (loop_exit c env = ExitSilence ->
   let st := final_state c env in
   triggered st = true /\
   length (ring_buffer st) = ring_maxlen c /\
   10 * count_occ bool_dec (ring_buffer st) true < length (ring_buffer st) /\
   (exists rec,
       frames st = pre_speech_buffer st ++ rec /\ ring_maxlen c <= length rec) /\
   In (EPrint MsgSilence) (loop_events c env) /\
   (open_ok env = true -> ret (record_with_vad c env) = write_ok env)).
Proof.
  assert (Hstep : forall st f,
      Reachable c env st ->
      triggered st = true ->
      total_frames st < max_frames c ->
      dev_read env (total_frames st) = Some f ->
      let b := is_speech_of (vad_is_speech env (total_frames st) f) in
      let st' := fst (fst (process_frame c env st f)) in
      frames st' = frames st ++ [f] /\
      ring_buffer st' = Deque.append (ring_maxlen c) (ring_buffer st) b /\
      triggered st' = true /\
      (snd (process_frame c env st f) = true <->
       length (ring_buffer st') = ring_maxlen c /\
       10 * count_occ bool_dec (ring_buffer st') true
       < length (ring_buffer st')) /\
      (length (ring_buffer st') = ring_maxlen c ->
       exists rec,
         frames st' = pre_speech_buffer st' ++ rec /\
         ring_maxlen c <= length rec)).
  { intros st f Hreach Htrig Hlt Hread b st'.
    pose proof (Inv_process_frame (Reachable_Inv Hreach) Hlt Hread) as HI'.
    fold st' in HI'. revert HI'.
    subst st'. unfold process_frame. fold b.
    rewrite on_frame_recording by exact Htrig. cbv zeta. state_simpl.
    intros HI'. do 3 (split; [reflexivity|]). split; [split|].
    - intros Hb. apply andb_prop in Hb. destruct Hb as [Hb1 Hb2].
      apply Nat.eqb_eq in Hb1.
      unfold mostly_silent, num_voiced in Hb2. apply Nat.ltb_lt in Hb2. auto.
    - intros [H1 H2]. apply andb_true_intro. split.
      + apply Nat.eqb_eq. exact H1.
      + unfold mostly_silent, num_voiced. apply Nat.ltb_lt. exact H2.
    - intros Hfull.
      destruct (inv_recording HI' eq_refl) as (k & rec & _ & _ & Hsplit & Hrl & _).
      state_simpl. exists rec. split; [exact Hsplit|].
      rewrite Hfull in Hrl. lia. }
  split; [exact Hstep|].
  intros Hex st.
  pose proof (run_loop_Ended c env) as Hend. rewrite Hex in Hend.
  destruct Hend as (st0 & f & evs & Hreach & Hlt & Hread & Hproc).
  fold st in Hproc.
  pose proof (break_is_recording c env _ _ Hproc) as Htrig.
  destruct (Hstep st0 f Hreach Htrig Hlt Hread) as (Hfr & Hrb & Htr & Hbrk & Hrec).
  rewrite Hproc in *. cbn [fst snd] in *.
  destruct (proj1 Hbrk eq_refl) as [Hfull Hsil].
  repeat split; auto.
  - pose proof (loop_messages c env (max_frames c - total_frames initial_state)
                  initial_state) as [Hm _].
    apply Hm. exact Hex.
  - intros Hopen.
    destruct (record_with_vad_open c env Hopen) as [_ Hret].
    rewrite Hret. fold st. unfold after_release. rewrite Hfr.
    destruct (frames st0 ++ [f]) eqn:Happ.
    + destruct (frames st0); discriminate.
    + destruct (write_ok env); reflexivity.
Qed.

(** With a ring of 20 entries: after three voiced frames, one more voiced
    frame and 19 unvoiced ones fill the ring with 1 voiced entry in 20, and
    the loop is left at the 23rd frame; two more voiced frames leave 2
    voiced entries in the full ring, which is a tenth and not less, and the
    loop goes on to the 24th frame. *)
Lemma recording_frame_step_witness :
  let one := sample_env (fun i => i <? 4) 40 true in
  let two := sample_env (fun i => i <? 5) 40 true in
  let st := state_at wide_caps two 22 in
  (Reachable wide_caps two st /\
   triggered st = true /\
   total_frames st < max_frames wide_caps /\
   dev_read two (total_frames st) = Some (tone 22) /\
   let st' := fst (fst (process_frame wide_caps two st (tone 22))) in
   length (frames st') = 22 /\
   ring_buffer st' = true :: true :: repeat false 18 /\
   length (ring_buffer st') = ring_maxlen wide_caps /\
   snd (process_frame wide_caps two st (tone 22)) = false) /\
  (loop_exit wide_caps two = ExitSilence /\
   ring_buffer (final_state wide_caps two) = true :: repeat false 19 /\
   total_frames (final_state wide_caps two) = 24) /\
  (loop_exit wide_caps one = ExitSilence /\
   ring_buffer (final_state wide_caps one) = true :: repeat false 19 /\
   10 * count_occ bool_dec (ring_buffer (final_state wide_caps one)) true
   < 20 /\
   total_frames (final_state wide_caps one) = 23 /\
   ret (record_with_vad wide_caps one) = true).
Proof.
  intros one two st.
  assert (Hreach : Reachable wide_caps two st)
    by (apply Reachable_state_at; vm_compute; reflexivity).
  assert (Htrig : triggered st = true) by (vm_compute; reflexivity).
  assert (Hlt : total_frames st < max_frames wide_caps)
    by (vm_compute; lia).
  assert (Hread : dev_read two (total_frames st) = Some (tone 22))
    by (vm_compute; reflexivity).
  assert (Hone : loop_exit wide_caps one = ExitSilence)
    by (vm_compute; reflexivity).
  assert (Htwo : loop_exit wide_caps two = ExitSilence)
    by (vm_compute; reflexivity).
  destruct (recording_frame_step wide_caps two) as [Hstep _].
  destruct (Hstep st (tone 22) Hreach Htrig Hlt Hread)
    as (Hfr & Hrb & _ & Hbrk & _).
  destruct (recording_frame_step wide_caps one) as [_ Hrun].
  destruct (Hrun Hone) as (_ & Hfull & Hsil & _ & _ & Hret).
  assert (Hring : ring_buffer
                    (fst (fst (process_frame wide_caps two st (tone 22))))
                  = true :: true :: repeat false 18)
    by (vm_compute; reflexivity).
  split; [|split].
  - split; [exact Hreach|]. split; [exact Htrig|]. split; [exact Hlt|].
    split; [exact Hread|]. cbv zeta.
    split; [rewrite Hfr; vm_compute; reflexivity|].
    split; [exact Hring|].
    split; [rewrite Hring; reflexivity|].
    destruct (snd (process_frame wide_caps two st (tone 22))) eqn:Hsnd;
      [|reflexivity].
    destruct (proj1 Hbrk eq_refl) as [_ Hfew].
    rewrite Hring in Hfew. vm_compute in Hfew. lia.
  - split; [exact Htwo|]. split; vm_compute; reflexivity.
  - split; [exact Hone|]. split; [vm_compute; reflexivity|].
    split; [rewrite Hfull in Hsil; exact Hsil|].
    split; [vm_compute; reflexivity|].
    exact (Hret eq_refl).
Defined.

(** ** Runs that reach the frame cap *)

Section CapFacts.

Variable c : Caps.
Variable env : Env.

Lemma runs_to_S (n : nat) : runs_to c env (S n) = true -> runs_to c env n = true.
Proof.
  cbn [runs_to]. intros H.
  apply andb_prop in H. destruct H as [H _].
  apply andb_prop in H. apply H.
Qed.

Lemma runs_to_le (n m : nat) :
  n <= m -> runs_to c env m = true -> runs_to c env n = true.
Proof.
  induction 1 as [|m _ IH]; auto.
  intros H. apply IH. apply runs_to_S. exact H.
Qed.

Lemma state_at_total (n : nat) :
  runs_to c env n = true -> total_frames (state_at c env n) = n.
Proof.
  induction n as [|n IH]; [reflexivity|].
  intros H. pose proof (runs_to_S _ H) as Hn. specialize (IH Hn).
  cbn [runs_to state_at] in *.
  destruct (dev_read env (total_frames (state_at c env n))) as [f|].
  - rewrite process_frame_total. congruence.
  - rewrite Hn in H. rewrite andb_false_r in H. discriminate.
Qed.

(** The loop leaves by its condition exactly when the body neither breaks
    nor meets a failed read before, and it then stops in the state reached
    after [max_frames] frames. *)
Lemma loop_cap (k n : nat) :
  runs_to c env n = true ->
  n + k = max_frames c ->
  (snd (loop c env k (state_at c env n)) = ExitCap <->
   runs_to c env (max_frames c) = true) /\
  (runs_to c env (max_frames c) = true ->
   fst (fst (loop c env k (state_at c env n))) = state_at c env (max_frames c)).
Proof.
  revert n. induction k as [|k IH]; intros n Hn Hk.
  - rewrite Nat.add_0_r in Hk. subst n. cbn. tauto.
  - pose proof (state_at_total _ Hn) as Htot.
    assert (Hmono : runs_to c env (max_frames c) = true ->
                    runs_to c env (S n) = true).
    { apply runs_to_le. lia. }
    specialize (IH (S n)).
    cbn [loop]. cbn [runs_to state_at] in *.
    destruct (dev_read env (total_frames (state_at c env n))) as [f|] eqn:Hread.
    + destruct (process_frame c env (state_at c env n) f) as [[st' evs] brk] eqn:Hstep.
      cbn [fst snd] in *.
      destruct brk; cbn [fst snd negb] in *.
      * rewrite andb_false_r in Hmono.
        split; [split|]; intros H; try discriminate;
          apply Hmono in H; discriminate.
      * assert (Hrun : runs_to c env n && (total_frames (state_at c env n) <? max_frames c)
                       && true = true).
        { rewrite Hn, Htot. cbn [andb]. rewrite andb_true_r.
          apply Nat.ltb_lt. lia. }
        specialize (IH Hrun ltac:(lia)).
        destruct (loop c env k st') as [[st'' evs'] ex]. exact IH.
    + rewrite andb_false_r in Hmono.
      split; [split|]; intros H; try discriminate;
        apply Hmono in H; discriminate.
Qed.

Lemma run_loop_cap :
  (loop_exit c env = ExitCap <-> runs_to c env (max_frames c) = true) /\
  (runs_to c env (max_frames c) = true ->
   final_state c env = state_at c env (max_frames c)).
Proof.
  unfold loop_exit, final_state, run_loop. cbn [total_frames initial_state].
  rewrite Nat.sub_0_r.
  apply (loop_cap (max_frames c) 0); reflexivity.
Qed.

End CapFacts.

(** ** Where things stand in the trace *)

Lemma in_loop_excludes (p : Event -> bool) (l : list Event) :
  (forall e, in_loop e = true -> p e = false) ->
  forallb in_loop l = true -> filter p l = [].
Proof.
  intros Hp. induction l as [|e l IH]; [reflexivity|].
  cbn [forallb filter]. intros H. apply andb_prop in H. destruct H as [He Hl].
  rewrite (Hp e He). auto.
Qed.

Lemma filter_nil_not_in (p : Event -> bool) (l : list Event) (e : Event) :
  filter p l = [] -> p e = true -> ~ In e l.
Proof.
  intros Hf He Hin.
  assert (H : In e (filter p l)) by (apply filter_In; auto).
  rewrite Hf in H. exact H.
Qed.

Lemma loop_events_no (c : Caps) (env : Env) (p : Event -> bool) :
  (forall e, in_loop e = true -> p e = false) ->
  filter p (loop_events c env) = [].
Proof.
  intros Hp. apply in_loop_excludes; [exact Hp|].
  apply run_loop_reads.
Qed.

Lemma cap_message_total (c : Caps) (st : LoopState) :
  (total_frames st < max_frames c -> cap_message c st = []) /\
  (max_frames c <= total_frames st -> cap_message c st = [EPrint MsgMaxTime]).
Proof.
  unfold cap_message.
  destruct (Nat.leb_spec (max_frames c) (total_frames st)); split; intros; auto; lia.
Qed.

Lemma filter_cap_message (c : Caps) (st : LoopState) (p : Event -> bool) :
  p (EPrint MsgMaxTime) = false -> filter p (cap_message c st) = [].
Proof.
  intros Hp. unfold cap_message. destruct (_ <=? _); cbn; [rewrite Hp|]; reflexivity.
Qed.

Section RunFacts.

Variable c : Caps.
Variable env : Env.
Hypothesis Hopen : open_ok env = true.

Lemma loop_events_in_loop (e : Event) :
  In e (loop_events c env) -> in_loop e = true.
Proof.
  destruct (run_loop_reads c env) as [Hall _].
  rewrite forallb_forall in Hall. apply Hall.
Qed.

Lemma ret_value :
  ret (record_with_vad c env)
  = match frames (final_state c env) with
    | [] => false
    | _ :: _ => write_ok env
    end.
Proof.
  destruct (record_with_vad_open c env Hopen) as [_ ->].
  unfold after_release.
  destruct (frames (final_state c env)); [|destruct (write_ok env)]; reflexivity.
Qed.

Lemma trace_writes :
  filter is_write (trace (record_with_vad c env))
  = match frames (final_state c env) with
    | [] => []
    | _ :: _ => [EWriteWav (wav_payload (frames (final_state c env))) (write_ok env)]
    end.
Proof.
  destruct (record_with_vad_open c env Hopen) as [-> _].
  rewrite !filter_app.
  rewrite (loop_events_no c env is_write) by by_cases_on_event.
  rewrite filter_cap_message by reflexivity.
  unfold after_release.
  destruct (frames (final_state c env)); [|destruct (write_ok env)]; reflexivity.
Qed.

Lemma trace_reads :
  filter is_read (trace (record_with_vad c env))
  = map (fun i => ERead i true) (seq 0 (total_frames (final_state c env)))
      ++ match loop_exit c env with
         | ExitReadError => [ERead (total_frames (final_state c env)) false]
         | _ => []
         end.
Proof.
  destruct (record_with_vad_open c env Hopen) as [-> _].
  destruct (run_loop_reads c env) as [_ <-].
  rewrite !filter_app.
  rewrite filter_cap_message by reflexivity.
  unfold after_release.
  destruct (frames (final_state c env)); [|destruct (write_ok env)];
    cbn; rewrite app_nil_r; reflexivity.
Qed.

Lemma printed_iff :
  let st := final_state c env in
  let tr := trace (record_with_vad c env) in
  (printed MsgMaxTime tr <-> max_frames c <= total_frames st) /\
  (printed MsgNoSpeech tr <-> frames st = []) /\
  (printed MsgWriteError tr <-> frames st <> [] /\ write_ok env = false) /\
  (printed MsgSilence tr <-> loop_exit c env = ExitSilence) /\
  (printed MsgReadError tr <-> loop_exit c env = ExitReadError).
Proof.
  intros st tr. subst tr. unfold printed.
  destruct (record_with_vad_open c env Hopen) as [-> _]. fold st.
  pose proof (loop_messages c env (max_frames c - total_frames initial_state)
                initial_state) as [Hsil Hrd].
  fold (run_loop c env) in Hsil, Hrd.
  fold (loop_events c env) in Hsil, Hrd. fold (loop_exit c env) in Hsil, Hrd.
  pose proof loop_events_in_loop as Hin.
  rewrite !in_app_iff.
  assert (Hcap : cap_message c st = [] /\ total_frames st < max_frames c \/
                 cap_message c st = [EPrint MsgMaxTime] /\
                 max_frames c <= total_frames st).
  { destruct (cap_message_total c st) as [H1 H2].
    destruct (Nat.lt_ge_cases (total_frames st) (max_frames c)); auto. }
  assert (Hafter :
    frames st = [] /\ snd (after_release env st) = [EPrint MsgNoSpeech] \/
    frames st <> [] /\ write_ok env = true /\
      snd (after_release env st) = [EWriteWav (wav_payload (frames st)) true] \/
    frames st <> [] /\ write_ok env = false /\
      snd (after_release env st)
      = [EWriteWav (wav_payload (frames st)) false; EPrint MsgWriteError]).
  { unfold after_release.
    destruct (frames st) eqn:Hfr; [auto|].
    destruct (write_ok env); [right; left|right; right];
      repeat split; auto; discriminate. }
  assert (Hno : forall m, in_loop (EPrint m) = false ->
                          ~ In (EPrint m) (loop_events c env)).
  { intros m Hm H. apply Hin in H. congruence. }
  pose proof (Hno MsgMaxTime eq_refl) as N1.
  pose proof (Hno MsgNoSpeech eq_refl) as N2.
  pose proof (Hno MsgWriteError eq_refl) as N3.
  unfold release_stream.
  destruct Hcap as [[-> Hc]|[-> Hc]];
    destruct Hafter as [[Hf ->]|[(Hf & Hw & ->)|(Hf & Hw & ->)]];
    cbn [In]; repeat split; intros;
    repeat match goal with
           | H : _ \/ _ |- _ => destruct H
           | H : _ /\ _ |- _ => destruct H
           | H : False |- _ => destruct H
           | H : EPrint _ = EPrint _ |- _ => inversion H; clear H
           end;
    try discriminate; try contradiction; try lia; try congruence;
    try tauto.
Qed.

End RunFacts.

Lemma recording_has_frames (c : Caps) (env : Env) (st : LoopState) :
  Inv c env st -> triggered st = true -> 0 < padding_frames c ->
  frames st <> [].
Proof.
  intros HI Htrig Hpad.
  destruct (inv_recording HI Htrig) as (_ & rec & _ & _ & Hsplit & _ & _ & Hp3).
  rewrite Hsplit. destruct (pre_speech_buffer st); cbn in *; [lia|discriminate].
Qed.

(** ** The frame cap *)

(** C3: the count of frames processed grows by one with every frame, in
    both states, and never passes [max_frames]; the loop is left through its
    condition exactly when neither a silence stop nor a failed read came
    within the first [max_frames] frames, and then exactly [max_frames]
    frames were processed and the time-limit message is printed.  If the
    controller is still ARMED then, no frame was captured, the call reports
    that no speech was detected and writes nothing; if it is RECORDING, the
    frames captured so far are written as they are and the call returns the
    success of that write.  The device is read once per counted frame and
    never again after the loop is left. *)
Theorem hard_cap (c : Caps) (env : Env) :
  open_ok env = true ->
  let st := final_state c env in
  let r := record_with_vad c env in
  (forall s f,
      total_frames (fst (fst (process_frame c env s f))) = S (total_frames s)) /\
  total_frames st <= max_frames c /\
  filter is_read (trace r)
  = map (fun i => ERead i true) (seq 0 (total_frames st))
      ++ match loop_exit c env with
         | ExitReadError => [ERead (total_frames st) false]
         | _ => []
         end /\
  (loop_exit c env = ExitCap <-> runs_to c env (max_frames c) = true) /\
  (loop_exit c env = ExitCap ->
   st = state_at c env (max_frames c) /\
   total_frames st = max_frames c /\
   printed MsgMaxTime (trace r) /\
   (triggered st = false ->
    frames st = [] /\ ret r = false /\ printed MsgNoSpeech (trace r) /\
    filter is_write (trace r) = []) /\
   (triggered st = true -> 0 < padding_frames c ->
    frames st <> [] /\ ret r = write_ok env /\
    filter is_write (trace r)
    = [EWriteWav (wav_payload (frames st)) (write_ok env)])) /\
  0 < padding_frames server_caps /\ max_frames server_caps = 100 * 100.
Proof.
  intros Hopen st r.
  assert (Hserver : 0 < padding_frames server_caps /\
                    max_frames server_caps = 100 * 100).
  { split; [vm_compute; lia|vm_compute; reflexivity]. }
  revert Hserver.
  match goal with |- ?S -> ?A /\ ?B /\ ?C /\ ?D /\ ?E /\ _ =>
    intros Hserver; cut (A /\ B /\ C /\ D /\ E); [tauto|]
  end.
  pose proof (final_state_Inv c env) as HI. fold st in HI.
  destruct (run_loop_cap c env) as [Hcap Hstate].
  destruct (printed_iff c env Hopen) as (Pmax & Pno & _).
  fold st in Pmax, Pno. fold r in Pmax, Pno.
  pose proof (ret_value c env Hopen) as Hret. fold st r in Hret.
  pose proof (trace_writes c env Hopen) as Hwr. fold st r in Hwr.
  split; [intros s f; apply process_frame_total|].
  split; [apply (inv_total HI)|].
  split; [apply trace_reads; exact Hopen|].
  split; [exact Hcap|].
  intros Hex.
  pose proof (run_loop_Ended c env) as Hend. rewrite Hex in Hend.
  destruct Hend as [_ Htot]. fold st in Htot.
  split; [apply Hstate, Hcap, Hex|].
  split; [exact Htot|].
  split; [apply Pmax; lia|].
  split.
  - intros Htrig. destruct (inv_armed HI Htrig) as (Hfr & _).
    rewrite Hfr in Hret, Hwr.
    split; [exact Hfr|]. split; [exact Hret|]. split; [apply Pno; exact Hfr|exact Hwr].
  - intros Htrig Hpad.
    pose proof (recording_has_frames HI Htrig Hpad) as Hne.
    split; [exact Hne|].
    destruct (frames st) eqn:Hfr; [contradiction|]. split; assumption.
Qed.

Lemma hard_cap_witness :
  let quiet := sample_env (fun _ => false) 100 true in
  let loud := sample_env (fun _ => true) 100 true in
  (open_ok quiet = true /\
   loop_exit small_caps quiet = ExitCap /\
   triggered (final_state small_caps quiet) = false /\
   total_frames (final_state small_caps quiet) = 12 /\
   ret (record_with_vad small_caps quiet) = false /\
   filter is_write (trace (record_with_vad small_caps quiet)) = []) /\
  (open_ok loud = true /\
   loop_exit small_caps loud = ExitCap /\
   triggered (final_state small_caps loud) = true /\
   0 < padding_frames small_caps /\
   total_frames (final_state small_caps loud) = 12 /\
   ret (record_with_vad small_caps loud) = true /\
   length (frames (final_state small_caps loud)) = 11).
Proof.
  intros quiet loud.
  assert (Hpad : 0 < padding_frames small_caps) by (cbn; lia).
  destruct (hard_cap small_caps quiet eq_refl) as (_ & _ & _ & _ & Hq & _).
  destruct (Hq eq_refl) as (_ & Hq1 & _ & Hq2 & _).
  destruct (Hq2 eq_refl) as (_ & Hq3 & _ & Hq4).
  destruct (hard_cap small_caps loud eq_refl) as (_ & _ & _ & _ & Hl & _).
  destruct (Hl eq_refl) as (_ & Hl1 & _ & _ & Hl2).
  destruct (Hl2 eq_refl Hpad) as (_ & Hl3 & _).
  split.
  - split; [reflexivity|]. split; [reflexivity|]. split; [reflexivity|].
    split; [exact Hq1|]. split; [exact Hq3|exact Hq4].
  - split; [reflexivity|]. split; [reflexivity|]. split; [reflexivity|].
    split; [exact Hpad|]. split; [exact Hl1|]. split; [exact Hl3|reflexivity].
Defined.

(** ** Failures *)

Lemma after_release_no_device (env : Env) (st : LoopState) :
  filter uses_device (snd (after_release env st)) = [].
Proof.
  unfold after_release.
  destruct (frames st); [|destruct (write_ok env)]; reflexivity.
Qed.

Lemma before_release_keeps_device (c : Caps) (env : Env) :
  filter is_release
    ([EOpen true; EPrint MsgListening; ENotify NoteListening]
       ++ loop_events c env ++ cap_message c (final_state c env)) = [].
Proof.
  rewrite !filter_app.
  rewrite (loop_events_no c env is_release) by by_cases_on_event.
  rewrite filter_cap_message by reflexivity. reflexivity.
Qed.

Lemma no_release_In (l : list Event) :
  filter is_release l = [] ->
  forall e, In e l ->
    e <> EStopStream /\ e <> ECloseStream /\ e <> ETerminate.
Proof.
  intros Hnil e He.
  assert (Hrel : is_release e = false).
  { destruct (is_release e) eqn:E; [|reflexivity].
    assert (Hin : In e (filter is_release l)) by (apply filter_In; auto).
    rewrite Hnil in Hin. contradiction. }
  repeat split; intros ->; discriminate.
Qed.

Lemma after_release_events (env : Env) (st : LoopState) :
  forall e, In e (snd (after_release env st)) ->
    match e with
    | EPrint _ | EWriteWav _ _ => True
    | _ => False
    end.
Proof.
  intros e. unfold after_release.
  destruct (frames st); [|destruct (write_ok env)]; cbn [snd In];
    intros H; decompose [or] H; subst; try exact I; contradiction.
Qed.

Lemma loop_read_error_tail (c : Caps) (env : Env) (k : nat) (st : LoopState) :
  snd (loop c env k st) = ExitReadError ->
  exists pre,
    snd (fst (loop c env k st))
    = pre ++ [ERead (total_frames (fst (fst (loop c env k st)))) false;
              EPrint MsgReadError].
Proof.
  revert st. induction k as [|k IH]; intros st; cbn [loop].
  - discriminate.
  - destruct (dev_read env (total_frames st)) as [f|] eqn:Hread.
    + destruct (process_frame c env st f) as [[st' evs] brk] eqn:Hstep.
      destruct brk; [discriminate|].
      specialize (IH st').
      destruct (loop c env k st') as [[st'' evs'] ex]. cbn [fst snd] in *.
      intros Hex. destruct (IH Hex) as (pre & ->).
      exists (ERead (total_frames st) true :: evs ++ pre).
      cbn [app]. rewrite <- app_assoc. reflexivity.
    + cbn [fst snd]. intros _. exists []. reflexivity.
Qed.

(** C4, as amended: when a device read fails the loop stops, the error is
    reported on stderr and the device is released (the stream stopped and
    closed, PyAudio terminated) before anything else is done.  If the
    controller was still ARMED, nothing is written and the call returns
    [False]; if it was RECORDING (with room for at least one pre-speech
    frame), the frames captured up to the failure, a run of consecutive
    frames read from the device, are written joined together, and the call
    returns the success of that write. *)
Theorem read_failure_outcome (c : Caps) (env : Env) :
  open_ok env = true ->
  loop_exit c env = ExitReadError ->
  let st := final_state c env in
  let r := record_with_vad c env in
  total_frames st < max_frames c /\
  dev_read env (total_frames st) = None /\
  (exists pre after,
      trace r
      = [EOpen true; EPrint MsgListening; ENotify NoteListening] ++ pre
          ++ [ERead (total_frames st) false; EPrint MsgReadError;
              EStopStream; ECloseStream; ETerminate]
          ++ after /\
      (forall e, In e pre ->
         e <> EStopStream /\ e <> ECloseStream /\ e <> ETerminate) /\
      (forall e, In e after ->
         match e with
         | EPrint _ | EWriteWav _ _ => True
         | _ => False
         end) /\
      (triggered st = false -> after = [EPrint MsgNoSpeech]) /\
      (triggered st = true -> 0 < padding_frames c ->
       after = EWriteWav (concat (frames st)) (write_ok env)
               :: (if write_ok env then [] else [EPrint MsgWriteError]))) /\
  (triggered st = false ->
   ret r = false /\ filter is_write (trace r) = [] /\
   In (EPrint MsgNoSpeech) (trace r)) /\
  (triggered st = true -> 0 < padding_frames c ->
   frames st <> [] /\
   (exists k, k <= total_frames st /\
              frames st = skipn k (captured env (total_frames st))) /\
   ret r = write_ok env /\
   filter is_write (trace r)
   = [EWriteWav (concat (frames st)) (write_ok env)]).
Proof.
  intros Hopen Hex st r.
  pose proof (final_state_Inv c env) as HI. fold st in HI.
  pose proof (run_loop_Ended c env) as Hend. rewrite Hex in Hend.
  destruct Hend as (_ & Hlt & Hnone). fold st in Hlt, Hnone.
  destruct (printed_iff c env Hopen) as (_ & Pno & _ & _ & Prd).
  fold st in Pno. fold r in Pno, Prd.
  pose proof (ret_value c env Hopen) as Hret. fold st r in Hret.
  pose proof (trace_writes c env Hopen) as Hwr. fold st r in Hwr.
  split; [exact Hlt|]. split; [exact Hnone|].
  split.
  - destruct (loop_read_error_tail c env
                (max_frames c - total_frames initial_state) initial_state Hex)
      as (pre & Hpre).
    fold (run_loop c env) in Hpre.
    fold (loop_events c env) in Hpre. fold (final_state c env) in Hpre.
    fold st in Hpre.
    exists pre, (snd (after_release env st)).
    split; [|split; [|split; [|split]]].
    + destruct (record_with_vad_open c env Hopen) as [Htr _].
      fold st r in Htr. rewrite Htr, Hpre.
      rewrite (proj1 (cap_message_total c st) Hlt).
      unfold release_stream. rewrite <- !app_assoc. reflexivity.
    + apply no_release_In.
      pose proof (loop_events_no c env is_release) as Hno.
      rewrite Hpre, filter_app in Hno.
      apply app_eq_nil in Hno; [apply Hno|by_cases_on_event].
    + apply after_release_events.
    + intros Htrig. destruct (inv_armed HI Htrig) as (Hfr & _).
      unfold after_release. rewrite Hfr. reflexivity.
    + intros Htrig Hpad.
      pose proof (recording_has_frames HI Htrig Hpad) as Hne.
      unfold after_release, wav_payload.
      destruct (frames st); [contradiction|].
      destruct (write_ok env); reflexivity.
  - split.
    + intros Htrig. destruct (inv_armed HI Htrig) as (Hfr & _).
      rewrite Hfr in Hret, Hwr.
      split; [exact Hret|]. split; [exact Hwr|apply Pno; exact Hfr].
    + intros Htrig Hpad.
      pose proof (recording_has_frames HI Htrig Hpad) as Hne.
      split; [exact Hne|].
      split.
      { destruct (inv_recording HI Htrig) as (k & rec & Hk & Hfr & _).
        exists k. split; [exact Hk|exact Hfr]. }
      unfold wav_payload in Hwr.
      destruct (frames st) eqn:Hfr; [contradiction|]. split; assumption.
Qed.

(** Five voiced frames of 1, 2, 3, 4 and 5 bytes, then the read fails: the
    recording started at the third frame, and the 15 bytes read are
    written after the device has been released. *)
Lemma read_failure_outcome_witness :
  let env := sample_env (fun _ => true) 5 true in
  open_ok env = true /\
  loop_exit server_caps env = ExitReadError /\
  triggered (final_state server_caps env) = true /\
  0 < padding_frames server_caps /\
  ret (record_with_vad server_caps env) = true /\
  filter is_write (trace (record_with_vad server_caps env))
  = [EWriteWav (repeat x01 15) true] /\
  trace (record_with_vad server_caps env)
  = [EOpen true; EPrint MsgListening; ENotify NoteListening;
     ERead 0 true; ERead 1 true; ERead 2 true;
     EPrint MsgRecording; ENotify NoteRecording;
     ERead 3 true; ERead 4 true;
     ERead 5 false; EPrint MsgReadError;
     EStopStream; ECloseStream; ETerminate;
     EWriteWav (repeat x01 15) true].
Proof.
  intros env.
  assert (Hex : loop_exit server_caps env = ExitReadError)
    by (vm_compute; reflexivity).
  assert (Htrig : triggered (final_state server_caps env) = true)
    by (vm_compute; reflexivity).
  assert (Hpad : 0 < padding_frames server_caps) by (vm_compute; lia).
  destruct (read_failure_outcome server_caps env eq_refl Hex)
    as (_ & _ & _ & _ & Hrec).
  destruct (Hrec Htrig Hpad) as (_ & _ & Hret & Hwr).
  split; [reflexivity|]. split; [exact Hex|]. split; [exact Htrig|].
  split; [exact Hpad|]. split; [exact Hret|].
  split; [rewrite Hwr; vm_compute; reflexivity|].
  vm_compute. reflexivity.
Defined.

(** The specification's wording of C4 fails on a read failure that comes
    while the controller is RECORDING: five voiced frames, then the read
    fails; the five frames are written and the call returns [True]. *)
Lemma read_failure_partial_output :
  ~ read_failure_leaves_no_output server_caps (sample_env (fun _ => true) 5 true).
Proof.
  intros H.
  assert (Hex : loop_exit server_caps (sample_env (fun _ => true) 5 true)
                = ExitReadError) by (vm_compute; reflexivity).
  destruct (H Hex) as [Hret _].
  vm_compute in Hret. discriminate.
Qed.

(** C5, as amended: when writing the captured frames fails, the call
    releases the device first, attempts the write, prints the write-error
    message, which a run without speech never prints, and returns [False];
    a run without speech prints the no-speech message, which a failed write
    never prints, writes nothing, and returns [False] as well. *)
Theorem write_failure_outcome (c : Caps) (env : Env) :
  open_ok env = true ->
  let st := final_state c env in
  let r := record_with_vad c env in
  (frames st <> [] -> write_ok env = false ->
   ret r = false /\
   printed MsgWriteError (trace r) /\
   ~ printed MsgNoSpeech (trace r) /\
   filter is_write (trace r) = [EWriteWav (wav_payload (frames st)) false] /\
   exists before,
     trace r = before ++ release_stream
                 ++ [EWriteWav (wav_payload (frames st)) false; EPrint MsgWriteError] /\
     filter is_release before = []) /\
  (frames st = [] ->
   ret r = false /\
   printed MsgNoSpeech (trace r) /\
   ~ printed MsgWriteError (trace r) /\
   filter is_write (trace r) = []).
Proof.
  intros Hopen st r.
  destruct (printed_iff c env Hopen) as (_ & Pno & Pwr & _).
  fold st in Pno, Pwr. fold r in Pno, Pwr.
  pose proof (ret_value c env Hopen) as Hret. fold st r in Hret.
  pose proof (trace_writes c env Hopen) as Hwr. fold st r in Hwr.
  split.
  - intros Hne Hw.
    split; [|split; [|split; [|split]]].
    + rewrite Hret, Hw. destruct (frames st); reflexivity.
    + apply Pwr. auto.
    + intros Hp. apply Pno in Hp. contradiction.
    + rewrite Hwr, Hw. destruct (frames st); [contradiction|reflexivity].
    + exists ([EOpen true; EPrint MsgListening; ENotify NoteListening]
                ++ loop_events c env ++ cap_message c st).
      split; [|apply before_release_keeps_device].
      destruct (record_with_vad_open c env Hopen) as [Htr _].
      fold st r in Htr. rewrite Htr, <- !app_assoc.
      unfold after_release. rewrite Hw.
      destruct (frames st); [contradiction|reflexivity].
  - intros Hnil. rewrite Hnil in Hret, Hwr.
    split; [exact Hret|]. split; [apply Pno; exact Hnil|].
    split; [|exact Hwr].
    intros Hp. apply Pwr in Hp. destruct Hp as [Hne _]. contradiction.
Qed.

Lemma write_failure_outcome_witness :
  let env := sample_env (fun _ => true) 5 false in
  open_ok env = true /\
  frames (final_state server_caps env) <> [] /\
  write_ok env = false /\
  ret (record_with_vad server_caps env) = false /\
  printed MsgWriteError (trace (record_with_vad server_caps env)).
Proof.
  intros env.
  assert (Hne : frames (final_state server_caps env) <> [])
    by (vm_compute; discriminate).
  destruct (write_failure_outcome server_caps env eq_refl) as [Hfail _].
  destruct (Hfail Hne eq_refl) as (Hret & Hpr & _).
  split; [reflexivity|]. split; [exact Hne|]. split; [reflexivity|].
  split; [exact Hret|exact Hpr].
Defined.

(** The specification's wording of C5 fails: a run whose write fails and a
    run without speech hand the same value, [False], to the caller. *)
Lemma write_failure_same_return :
  ~ write_failure_is_distinct server_caps
      (sample_env (fun _ => true) 5 false)
      (sample_env (fun _ => false) 5 true).
Proof.
  intros H. apply H.
  - vm_compute. discriminate.
  - reflexivity.
  - vm_compute. reflexivity.
  - vm_compute. reflexivity.
Qed.

(** ** Release of the device *)

(** C9: on every path through [record_with_vad], whether the loop ends by
    silence, by the frame cap or by a failed read, with or without failing
    classifications, and also when the device cannot be opened, the trace of
    the call contains the release of the device (stop and close of the
    stream when one was opened, then termination of PyAudio); nothing is
    released before, and afterwards the call only prints and writes the
    file. *)
Theorem device_released (c : Caps) (env : Env) :
  exists before after,
    trace (record_with_vad c env)
    = before
        ++ (if open_ok env
            then [EStopStream; ECloseStream; ETerminate]
            else [ETerminate])
        ++ after /\
    hd_error before = Some (EOpen (open_ok env)) /\
    (forall e, In e before ->
       e <> EStopStream /\ e <> ECloseStream /\ e <> ETerminate) /\
    (forall e, In e after ->
       match e with
       | EPrint _ | EWriteWav _ _ => True
       | _ => False
       end) /\
    (open_ok env = false ->
     before = [EOpen false; EPrint MsgOpenError] /\ after = [] /\
     ret (record_with_vad c env) = false).
Proof.
  destruct (open_ok env) eqn:Hopen.
  - exists ([EOpen true; EPrint MsgListening; ENotify NoteListening]
              ++ loop_events c env ++ cap_message c (final_state c env)),
           (snd (after_release env (final_state c env))).
    split; [|split; [|split; [|split]]].
    + destruct (record_with_vad_open c env Hopen) as [-> _].
      unfold release_stream. rewrite <- !app_assoc. reflexivity.
    + reflexivity.
    + apply no_release_In. apply before_release_keeps_device.
    + apply after_release_events.
    + discriminate.
  - exists [EOpen false; EPrint MsgOpenError], [].
    rewrite (record_with_vad_closed c env Hopen).
    split; [reflexivity|]. split; [reflexivity|].
    split; [apply no_release_In; reflexivity|].
    split; [intros e []|].
    intros _. repeat split; reflexivity.
Qed.

(** A device that cannot be opened is only terminated; a stream that was
    opened, here one whose third read fails before any speech, is stopped
    and closed first. *)
Lemma device_released_witness :
  let closed := {| open_ok := false; dev_read := fun _ => None;
                   vad_is_speech := fun _ _ => None; write_ok := true |} in
  let opened := sample_env (fun _ => false) 2 true in
  (open_ok closed = false /\
   ret (record_with_vad server_caps closed) = false /\
   trace (record_with_vad server_caps closed)
   = [EOpen false; EPrint MsgOpenError] ++ [ETerminate] ++ []) /\
  (trace (record_with_vad small_caps opened)
   = [EOpen true; EPrint MsgListening; ENotify NoteListening;
      ERead 0 true; ERead 1 true; ERead 2 false; EPrint MsgReadError;
      EStopStream; ECloseStream; ETerminate;
      EPrint MsgNoSpeech] /\
   exists before after,
     trace (record_with_vad small_caps opened)
     = before ++ [EStopStream; ECloseStream; ETerminate] ++ after /\
     hd_error before = Some (EOpen true) /\
     (forall e, In e before ->
        e <> EStopStream /\ e <> ECloseStream /\ e <> ETerminate) /\
     (forall e, In e after ->
        match e with
        | EPrint _ | EWriteWav _ _ => True
        | _ => False
        end)).
Proof.
  intros closed opened.
  destruct (device_released server_caps closed)
    as (before & after & Htr & _ & _ & _ & Hclosed).
  destruct (Hclosed eq_refl) as (Hb & Ha & Hret).
  destruct (device_released small_caps opened)
    as (before' & after' & Htr' & Hhd & Hbefore & Hafter & _).
  split.
  - split; [reflexivity|]. split; [exact Hret|].
    rewrite Htr, Hb, Ha. reflexivity.
  - split; [vm_compute; reflexivity|].
    exists before', after'.
    split; [exact Htr'|]. split; [exact Hhd|].
    split; [exact Hbefore|exact Hafter].
Defined.

(** ** Failing classifications *)

Lemma loop_same_verdicts (c : Caps) (env : Env)
      (v v' : nat -> Frame -> option bool) (k : nat) (st : LoopState) :
  same_verdicts v v' ->
  loop c (with_vad env v) k st = loop c (with_vad env v') k st.
Proof.
  intros Hsame. revert st. induction k as [|k IH]; intros st; [reflexivity|].
  cbn [loop]. cbn [dev_read with_vad].
  destruct (dev_read env (total_frames st)) as [f|]; [|reflexivity].
  unfold process_frame. cbn [vad_is_speech with_vad].
  rewrite (Hsame (total_frames st) f).
  destruct (on_frame c (count_frame st) f (is_speech_of (v' (total_frames st) f)))
    as [[st' evs] brk].
  destruct brk; [reflexivity|]. rewrite IH. reflexivity.
Qed.

Lemma record_same_verdicts (c : Caps) (env : Env)
      (v v' : nat -> Frame -> option bool) :
  same_verdicts v v' ->
  run_loop c (with_vad env v) = run_loop c (with_vad env v') /\
  record_with_vad c (with_vad env v) = record_with_vad c (with_vad env v').
Proof.
  intros Hsame.
  assert (Hrun : run_loop c (with_vad env v) = run_loop c (with_vad env v')).
  { unfold run_loop. apply loop_same_verdicts. exact Hsame. }
  split; [exact Hrun|].
  unfold record_with_vad. rewrite Hrun. reflexivity.
Qed.

(** With no frame classified as speech the controller stays ARMED and the
    loop is never left by the silence check. *)
Lemma loop_unvoiced (c : Caps) (env : Env) (k : nat) (st : LoopState) :
  (forall i f, is_speech_of (vad_is_speech env i f) = false) ->
  triggered st = false ->
  triggered (fst (fst (loop c env k st))) = false /\
  frames (fst (fst (loop c env k st))) = frames st /\
  snd (loop c env k st) <> ExitSilence.
Proof.
  intros Hquiet. revert st. induction k as [|k IH]; intros st Htrig; cbn [loop].
  - cbn. repeat split; auto; discriminate.
  - destruct (dev_read env (total_frames st)) as [f|].
    + unfold process_frame. rewrite Hquiet.
      rewrite on_frame_armed by exact Htrig. cbv beta iota zeta.
      match goal with
      | |- context [loop c env k ?s] =>
        specialize (IH s eq_refl); destruct (loop c env k s) as [[st'' evs'] ex]
      end.
      exact IH.
    + cbn. repeat split; auto; discriminate.
Qed.

(** C6: a frame whose classification raises is handled as a non-speech
    frame and the loop goes on; two classifiers that differ only in raising
    where the other answers non-speech give the same run, so that with a
    classifier that always raises the call returns the same value, performs
    the same actions and ends in the same state as with one that answers
    non-speech on every frame; in such a run the classifier never ends the
    session. *)
Theorem classifier_failure_is_silence (c : Caps) (env : Env) :
  (forall st f,
      vad_is_speech env (total_frames st) f = None ->
      process_frame c env st f = on_frame c (count_frame st) f false) /\
  (forall v v',
      same_verdicts v v' ->
      run_loop c (with_vad env v) = run_loop c (with_vad env v') /\
      record_with_vad c (with_vad env v) = record_with_vad c (with_vad env v')) /\
  run_loop c (with_vad env (fun _ _ => None))
  = run_loop c (with_vad env (fun _ _ => Some false)) /\
  record_with_vad c (with_vad env (fun _ _ => None))
  = record_with_vad c (with_vad env (fun _ _ => Some false)) /\
  loop_exit c (with_vad env (fun _ _ => None)) <> ExitSilence /\
  triggered (final_state c (with_vad env (fun _ _ => None))) = false.
Proof.
  assert (Hsame : same_verdicts (fun _ _ => None) (fun _ _ => Some false))
    by (intros i f; reflexivity).
  split; [|split; [|split; [|split]]].
  - intros st f Hnone. unfold process_frame. rewrite Hnone. reflexivity.
  - intros v v'. apply record_same_verdicts.
  - apply (record_same_verdicts c env Hsame).
  - apply (record_same_verdicts c env Hsame).
  - pose proof (loop_unvoiced c (with_vad env (fun _ _ => None))
                  (max_frames c - total_frames initial_state) initial_state
                  (fun _ _ => eq_refl) eq_refl) as (H1 & _ & H3).
    split; [exact H3|exact H1].
Qed.

Lemma classifier_failure_is_silence_witness :
  let env := with_vad (sample_env (fun _ => true) 100 true) (fun _ _ => None) in
  vad_is_speech env (total_frames initial_state) (tone 0) = None /\
  process_frame small_caps env initial_state (tone 0)
  = on_frame small_caps (count_frame initial_state) (tone 0) false /\
  same_verdicts (fun _ _ => None) (fun _ _ => Some false) /\
  record_with_vad small_caps env
  = record_with_vad small_caps (sample_env (fun _ => false) 100 true).
Proof.
  intros env.
  assert (Hsame : same_verdicts (fun _ _ => None) (fun _ _ => Some false))
    by (intros i f; reflexivity).
  destruct (classifier_failure_is_silence small_caps env) as (Hframe & Hrun & _).
  split; [reflexivity|].
  split; [exact (Hframe initial_state (tone 0) eq_refl)|].
  split; [exact Hsame|].
  exact (proj2 (Hrun _ _ Hsame)).
Defined.

(** ** Conversions from durations to frame counts *)







(** ** The bounded buffers *)

(** C8: throughout every run the pre-speech buffer never holds more than
    [padding_frames] frames and the silence ring never more than its
    [maxlen] classifications (10 and 50 for the constants of the server);
    an append to a buffer that is full drops exactly its oldest entry, and
    an append to a buffer with room drops nothing. *)
Theorem buffers_bounded (c : Caps) (env : Env) :
  (forall st,
      Reachable c env st ->
      length (pre_speech_buffer st) <= padding_frames c /\
      length (ring_buffer st) <= ring_maxlen c) /\
  (length (pre_speech_buffer (final_state c env)) <= padding_frames c /\
   length (ring_buffer (final_state c env)) <= ring_maxlen c) /\
  (forall st f oldest rest,
      triggered st = false ->
      pre_speech_buffer st = oldest :: rest ->
      length (pre_speech_buffer st) = padding_frames c ->
      pre_speech_buffer (fst (fst (process_frame c env st f))) = rest ++ [f]) /\
  (forall st f,
      triggered st = false ->
      length (pre_speech_buffer st) < padding_frames c ->
      pre_speech_buffer (fst (fst (process_frame c env st f)))
      = pre_speech_buffer st ++ [f]) /\
  (forall st f oldest rest,
      triggered st = true ->
      ring_buffer st = oldest :: rest ->
      length (ring_buffer st) = ring_maxlen c ->
      ring_buffer (fst (fst (process_frame c env st f)))
      = rest ++ [is_speech_of (vad_is_speech env (total_frames st) f)]) /\
  (forall st f,
      triggered st = true ->
      length (ring_buffer st) < ring_maxlen c ->
      ring_buffer (fst (fst (process_frame c env st f)))
      = ring_buffer st ++ [is_speech_of (vad_is_speech env (total_frames st) f)]) /\
  padding_frames server_caps = 10 /\ ring_maxlen server_caps = 50.
Proof.
  split; [|split; [|split; [|split; [|split; [|split]]]]].
  - intros st Hreach. pose proof (Reachable_Inv Hreach) as HI.
    split; [apply (inv_pre_len HI)|apply (inv_ring_len HI)].
  - pose proof (final_state_Inv c env) as HI.
    split; [apply (inv_pre_len HI)|apply (inv_ring_len HI)].
  - intros st f oldest rest Htrig Hpre Hfull.
    unfold process_frame. rewrite on_frame_armed by exact Htrig.
    cbv zeta. state_simpl. rewrite Hpre in *.
    split_ifs; state_simpl; apply DequeFacts.append_evicts_oldest; exact Hfull.
  - intros st f Htrig Hroom.
    unfold process_frame. rewrite on_frame_armed by exact Htrig.
    cbv zeta. state_simpl.
    split_ifs; state_simpl; apply DequeFacts.append_room; exact Hroom.
  - intros st f oldest rest Htrig Hring Hfull.
    unfold process_frame. rewrite on_frame_recording by exact Htrig.
    state_simpl. rewrite Hring in *.
    apply DequeFacts.append_evicts_oldest; exact Hfull.
  - intros st f Htrig Hroom.
    unfold process_frame. rewrite on_frame_recording by exact Htrig.
    state_simpl. apply DequeFacts.append_room; exact Hroom.
  - split; reflexivity.
Qed.

Lemma buffers_bounded_witness :
  let quiet := sample_env (fun _ => false) 100 true in
  let loud := sample_env (fun _ => true) 100 true in
  let armed := state_at small_caps quiet 3 in
  let recording := state_at small_caps loud 9 in
  (Reachable small_caps quiet armed /\
   triggered armed = false /\
   pre_speech_buffer armed = [tone 1; tone 2] /\
   length (pre_speech_buffer armed) = padding_frames small_caps /\
   pre_speech_buffer (fst (fst (process_frame small_caps quiet armed (tone 3))))
   = [tone 2; tone 3]) /\
  (Reachable small_caps loud recording /\
   triggered recording = true /\
   ring_buffer recording = [true; true; true; true; true] /\
   length (ring_buffer recording) = ring_maxlen small_caps /\
   ring_buffer (fst (fst (process_frame small_caps loud recording (tone 9))))
   = [true; true; true; true; true]).
Proof.
  intros quiet loud armed recording.
  assert (Ha : Reachable small_caps quiet armed)
    by (apply Reachable_state_at; reflexivity).
  assert (Hr : Reachable small_caps loud recording)
    by (apply Reachable_state_at; reflexivity).
  destruct (buffers_bounded small_caps quiet) as (_ & _ & Hpre & _).
  destruct (buffers_bounded small_caps loud) as (_ & _ & _ & _ & Hring & _).
  split.
  - split; [exact Ha|]. split; [reflexivity|]. split; [reflexivity|].
    split; [reflexivity|].
    exact (Hpre armed (tone 3) (tone 1) [tone 2] eq_refl eq_refl eq_refl).
  - split; [exact Hr|]. split; [reflexivity|]. split; [reflexivity|].
    split; [reflexivity|].
    exact (Hring recording (tone 9) true [true; true; true; true]
             eq_refl eq_refl eq_refl).
Defined.

(** ** The captured frames *)

(** C10: the frames a call ends with are a contiguous stretch of the
    frames read from the device, from some position on up to the last frame
    read, in the order they were read, so that every frame read occupies at
    most one position of the output.  At the trigger the frames are exactly
    the pre-speech buffer, whose last entry is the frame that completes the
    trigger; that frame is not appended a second time, and from then on each
    frame read is appended once.  The frames are what the call writes. *)
Theorem output_is_window_of_captured (c : Caps) (env : Env) :
  let st := final_state c env in
  let read := captured env (total_frames st) in
  length read = total_frames st /\
  (exists k,
      k <= total_frames st /\
      frames st = skipn k read /\
      length (frames st) = total_frames st - k /\
      forall i, nth_error (frames st) i = nth_error read (k + i)) /\
  (triggered st = false -> frames st = []) /\
  (forall s f,
      Reachable c env s ->
      triggered s = false ->
      dev_read env (total_frames s) = Some f ->
      let s' := fst (fst (process_frame c env s f)) in
      triggered s' = true ->
      frames s' = pre_speech_buffer s' /\
      frames s' = skipn (S (total_frames s) - padding_frames c)
                        (captured env (total_frames s) ++ [f])) /\
  (forall s f,
      triggered s = true ->
      frames (fst (fst (process_frame c env s f))) = frames s ++ [f]) /\
  (open_ok env = true ->
   filter is_write (trace (record_with_vad c env))
   = match frames st with
     | [] => []
     | _ :: _ => [EWriteWav (wav_payload (frames st)) (write_ok env)]
     end).
Proof.
  intros st read.
  pose proof (final_state_Inv c env) as HI. fold st in HI.
  pose proof (inv_captured HI) as Hlen. fold read in Hlen.
  split; [exact Hlen|].
  split; [|split; [|split; [|split]]].
  - destruct (triggered st) eqn:Htrig.
    + destruct (inv_recording HI Htrig) as (k & _ & Hk & Hfr & _).
      fold read in Hfr.
      exists k. split; [exact Hk|]. split; [exact Hfr|].
      split; [rewrite Hfr, length_skipn, Hlen; reflexivity|].
      intros i. rewrite Hfr. apply nth_error_skipn.
    + destruct (inv_armed HI Htrig) as (Hfr & _).
      exists (total_frames st). split; [lia|].
      rewrite Hfr.
      split; [rewrite <- Hlen at 1; rewrite skipn_all; reflexivity|].
      split; [cbn; lia|].
      intros i. destruct i; cbn [nth_error]; symmetry;
        apply nth_error_None; lia.
  - intros Htrig. apply (inv_armed HI Htrig).
  - intros s f Hreach Htrig Hread s' Htrig'.
    pose proof (Reachable_Inv Hreach) as HIs.
    destruct (inv_armed HIs Htrig) as (Hfr & _).
    pose proof (armed_window HIs Htrig Hread) as Hwin.
    cbn [captured] in Hwin. rewrite Hread in Hwin.
    revert Htrig'. subst s'. unfold process_frame.
    rewrite on_frame_armed by exact Htrig. cbv zeta.
    split_ifs; state_simpl; try discriminate.
    intros _. rewrite Hfr. cbn [app]. split; [reflexivity|exact Hwin].
  - intros s f Htrig. unfold process_frame.
    rewrite on_frame_recording by exact Htrig. reflexivity.
  - intros Hopen. apply trace_writes. exact Hopen.
Qed.

Lemma output_is_window_of_captured_witness :
  let env := sample_env (fun i => (4 <=? i) && (i <? 7)) 100 true in
  let s := state_at small_caps env 6 in
  Reachable small_caps env s /\
  triggered s = false /\
  dev_read env (total_frames s) = Some (tone 6) /\
  triggered (fst (fst (process_frame small_caps env s (tone 6)))) = true /\
  frames (fst (fst (process_frame small_caps env s (tone 6)))) = [tone 5; tone 6] /\
  open_ok env = true /\
  filter is_write (trace (record_with_vad small_caps env))
  = [EWriteWav (wav_payload [tone 5; tone 6; tone 7; tone 8; tone 9;
                             tone 10; tone 11]) true].
Proof.
  intros env s.
  assert (Hreach : Reachable small_caps env s)
    by (apply Reachable_state_at; reflexivity).
  destruct (output_is_window_of_captured small_caps env)
    as (_ & _ & _ & Htrigger & _ & Hwrite).
  destruct (Htrigger s (tone 6) Hreach eq_refl eq_refl eq_refl) as [_ Hfr].
  split; [exact Hreach|]. split; [reflexivity|]. split; [reflexivity|].
  split; [reflexivity|]. split; [exact Hfr|]. split; [reflexivity|].
  exact (Hwrite eq_refl).
Defined.

(** ** The run and the classifications *)

Section StoryFacts.

Variable c : Caps.
Variable env : Env.

(** A property kept by every pass through the loop body holds whenever the
    loop condition is evaluated and when the loop is left. *)
Lemma run_invariant (P : LoopState -> Prop) :
  P initial_state ->
  (forall st f,
      Reachable c env st -> P st ->
      total_frames st < max_frames c ->
      dev_read env (total_frames st) = Some f ->
      P (fst (fst (process_frame c env st f)))) ->
  (forall st, Reachable c env st -> P st) /\ P (final_state c env).
Proof.
  intros Hinit Hstep.
  assert (Hreach : forall st, Reachable c env st -> P st).
  { induction 1 as [|st f st' evs Hr IH Hlt Hread Hproc]; [exact Hinit|].
    pose proof (Hstep st f Hr IH Hlt Hread) as H.
    rewrite Hproc in H. exact H. }
  split; [exact Hreach|].
  pose proof (run_loop_Ended c env) as Hend.
  destruct (loop_exit c env).
  - apply Hreach, Hend.
  - apply Hreach, Hend.
  - destruct Hend as (st0 & f & evs & Hr & Hlt & Hread & Hproc).
    pose proof (Hstep st0 f Hr (Hreach st0 Hr) Hlt Hread) as H.
    rewrite Hproc in H. exact H.
Qed.

Lemma verdicts_S (n : nat) :
  verdicts env (S n) = verdicts env n ++ [verdict env n].
Proof.
  unfold verdicts. rewrite seq_S, map_app. reflexivity.
Qed.

Lemma length_verdicts (n : nat) : length (verdicts env n) = n.
Proof. unfold verdicts. rewrite length_map, length_seq. reflexivity. Qed.

Lemma verdict_read (i : nat) (f : Frame) :
  dev_read env i = Some f ->
  is_speech_of (vad_is_speech env i f) = verdict env i.
Proof. intros H. unfold verdict. rewrite H. reflexivity. Qed.

Lemma Story_initial : Story c env initial_state.
Proof.
  constructor; cbn [triggered voiced_frames total_frames initial_state].
  - intros _. repeat split; intros; lia.
  - discriminate.
Qed.

Lemma Story_process_frame (st : LoopState) (f : Frame) :
  Inv c env st -> Story c env st ->
  dev_read env (total_frames st) = Some f ->
  Story c env (fst (fst (process_frame c env st f))).
Proof.
  intros HI [Harmed Hrec] Hread.
  pose proof (inv_captured HI) as Hcap.
  unfold process_frame. rewrite (verdict_read _ Hread).
  set (n := total_frames st) in *.
  destruct (triggered st) eqn:Htrig.
  - (* RECORDING *)
    rewrite on_frame_recording by exact Htrig. cbv zeta.
    constructor; state_simpl; [discriminate|]. intros _.
    destruct (Hrec eq_refl) as (t & Ht & Htriple & Hfirst & Hfr & Hring).
    exists t. split; [lia|]. split; [exact Htriple|]. split; [exact Hfirst|].
    fold n.
    assert (Hv : skipn (t + 3) (verdicts env (S n))
                 = skipn (t + 3) (verdicts env n) ++ [verdict env n]).
    { rewrite verdicts_S, skipn_app, length_verdicts.
      replace (t + 3 - n) with 0 by lia. reflexivity. }
    split.
    + rewrite Hfr. cbn [captured]. fold n. rewrite Hread.
      rewrite skipn_app, Hcap.
      replace (t + 3 - padding_frames c - n) with 0 by lia. reflexivity.
    + rewrite Hring, Hv. apply DequeFacts.append_window.
  - (* ARMED *)
    destruct (Harmed eq_refl) as (Hnone & Hv1 & Hv2 & Hmax).
    destruct (inv_armed HI Htrig) as (Hfr & Hrb & Hlt3 & Hle & _).
    pose proof (armed_window HI Htrig Hread) as Hwin.
    rewrite on_frame_armed by (state_simpl; exact Htrig).
    cbv zeta. state_simpl. fold n in Hwin, Hle, Hcap |- *.
    destruct (verdict env n) eqn:Hb.
    + destruct (Nat.leb_spec 3 (S (voiced_frames st))) as [Hge|Hless].
      * (* the third voiced frame in a row *)
        constructor; state_simpl; [discriminate|]. intros _.
        assert (Hn2 : 2 <= n) by lia.
        exists (n - 2).
        split; [lia|].
        split.
        { unfold voiced_triple.
          replace (S (S (n - 2))) with n by lia.
          replace (S (n - 2)) with (n - 1) by lia.
          rewrite Hb, Hv1, Hv2 by lia. reflexivity. }
        split; [intros t' Ht'; apply Hnone; lia|].
        replace (n - 2 + 3) with (S n) by lia.
        split.
        { rewrite Hfr. cbn [app]. exact Hwin. }
        { assert (E : skipn (S n) (verdicts env (S n)) = [])
            by (apply skipn_all2; rewrite length_verdicts; lia).
          rewrite Hrb, E, skipn_nil. reflexivity. }
      * constructor; state_simpl; [|discriminate]. intros _.
        split; [|split; [|split]].
        { intros t Ht. destruct (Nat.le_gt_cases (t + 3) n) as [Hold|Hnew];
            [apply Hnone; exact Hold|].
          assert (Htn : t = n - 2 /\ 2 <= n) by lia. destruct Htn as [-> Hn2].
          unfold voiced_triple.
          replace (S (n - 2)) with (n - 1) by lia.
          destruct (voiced_frames st) as [|[|v]] eqn:Hvf; [| |lia].
          - replace (n - 1) with (n - 1 - 0) by lia.
            rewrite (Hmax ltac:(lia)). rewrite andb_false_r. reflexivity.
          - replace (n - 2) with (n - 1 - 1) by lia.
            rewrite (Hmax ltac:(lia)). reflexivity. }
        { intros _. replace (S n - 1) with n by lia. exact Hb. }
        { intros H2. replace (S n - 2) with (n - 1) by lia. apply Hv1. lia. }
        { intros Hlt.
          replace (S n - 1 - S (voiced_frames st))
            with (n - 1 - voiced_frames st) by lia.
          apply Hmax. lia. }
    + constructor; state_simpl; [|discriminate]. intros _.
      split; [|split; [|split]]; try (intros; lia).
      * intros t Ht. destruct (Nat.le_gt_cases (t + 3) n) as [Hold|Hnew];
          [apply Hnone; exact Hold|].
        assert (Htn : S (S t) = n) by lia.
        unfold voiced_triple. rewrite Htn, Hb. apply andb_false_r.
      * intros _. replace (S n - 1 - 0) with n by lia. exact Hb.
Qed.

Lemma run_Story :
  (forall st, Reachable c env st -> Story c env st) /\
  Story c env (final_state c env).
Proof.
  pose proof (run_invariant (fun st => Inv c env st /\ Story c env st)) as H.
  cbv beta in H.
  assert (Hinit : Inv c env initial_state /\ Story c env initial_state)
    by (split; [apply Inv_initial|apply Story_initial]).
  assert (Hstep : forall st f,
             Reachable c env st ->
             Inv c env st /\ Story c env st ->
             total_frames st < max_frames c ->
             dev_read env (total_frames st) = Some f ->
             Inv c env (fst (fst (process_frame c env st f))) /\
             Story c env (fst (fst (process_frame c env st f)))).
  { intros st f _ [HI HS] Hlt Hread.
    split; [apply Inv_process_frame; assumption|].
    apply Story_process_frame; assumption. }
  destruct (H Hinit Hstep) as [H1 H2].
  split; [intros st Hr; apply (H1 st Hr)|apply H2].
Qed.

(** While the loop goes on with a full ring, the ring is not mostly
    silent. *)
Lemma Reachable_full_ring_voiced (st : LoopState) :
  Reachable c env st ->
  triggered st = true ->
  length (ring_buffer st) = ring_maxlen c ->
  mostly_silent (ring_buffer st) = false.
Proof.
  induction 1 as [|st f st' evs Hr IH Hlt Hread Hproc].
  - discriminate.
  - intros Htrig' Hfull.
    unfold process_frame in Hproc.
    destruct (triggered st) eqn:Htrig.
    + rewrite on_frame_recording in Hproc by (state_simpl; exact Htrig).
      cbv zeta in Hproc.
      pose proof (f_equal snd Hproc) as Hbrk.
      pose proof (f_equal (fun x => fst (fst x)) Hproc) as Hst.
      cbn [fst snd] in Hbrk, Hst. subst st'. state_simpl.
      apply Nat.eqb_eq in Hfull. rewrite Hfull in Hbrk. exact Hbrk.
    + destruct (inv_armed (Reachable_Inv Hr) Htrig) as (_ & Hrb & _).
      rewrite on_frame_armed in Hproc by (state_simpl; exact Htrig).
      cbv zeta in Hproc.
      pose proof (f_equal (fun x => fst (fst x)) Hproc) as Hst.
      cbv beta in Hst. clear Hproc. revert Hst.
      split_ifs; cbn [fst]; intros Hst; subst st'; state_simpl;
        try discriminate.
      rewrite Hrb. reflexivity.
Qed.

End StoryFacts.

(** ** When recording starts and why it goes on *)

(** X1: the controller triggers exactly when, among the frames it has
    processed, three consecutive ones were classified as speech; the frames
    it keeps then start [padding_frames] frames before the end of the first
    such triple (or at the first frame read, if fewer were read) and run to
    the last frame read.  With room for at least one pre-speech frame, the
    call returns [True] exactly when the device opened, such a triple
    occurred and the WAV write succeeded. *)
Theorem recording_starts_at_first_voiced_triple (c : Caps) (env : Env) :
  let st := final_state c env in
  (triggered st = true <->
   exists t, t + 3 <= total_frames st /\ voiced_triple env t = true) /\
  (triggered st = true ->
   exists t,
     t + 3 <= total_frames st /\
     voiced_triple env t = true /\
     (forall t', t' < t -> voiced_triple env t' = false) /\
     frames st
     = skipn (t + 3 - padding_frames c) (captured env (total_frames st))) /\
  (0 < padding_frames c ->
   (ret (record_with_vad c env) = true <->
    open_ok env = true /\ write_ok env = true /\
    exists t, t + 3 <= total_frames st /\ voiced_triple env t = true)).
Proof.
  intros st.
  destruct (run_Story c env) as [_ HS]. fold st in HS.
  pose proof (final_state_Inv c env) as HI. fold st in HI.
  assert (Hiff : triggered st = true <->
                 exists t, t + 3 <= total_frames st /\ voiced_triple env t = true).
  { split.
    - intros Htrig.
      destruct (story_recording HS Htrig) as (t & Ht & Htriple & _).
      exists t. split; assumption.
    - intros (t & Ht & Htriple).
      destruct (triggered st) eqn:Htrig; [reflexivity|].
      destruct (story_armed HS Htrig) as (Hnone & _).
      rewrite (Hnone t Ht) in Htriple. discriminate. }
  split; [exact Hiff|]. split.
  - intros Htrig.
    destruct (story_recording HS Htrig) as (t & Ht & Htriple & Hfirst & Hfr & _).
    exists t. split; [exact Ht|]. split; [exact Htriple|].
    split; [exact Hfirst|exact Hfr].
  - intros Hpad. rewrite <- Hiff. split.
    + intros Hret.
      destruct (open_ok env) eqn:Hopen.
      * rewrite (ret_value c env Hopen) in Hret. fold st in Hret.
        destruct (frames st) eqn:Hfr; [discriminate|].
        split; [reflexivity|]. split; [exact Hret|].
        destruct (triggered st) eqn:Htrig; [reflexivity|].
        destruct (inv_armed HI Htrig) as (Hnil & _). congruence.
      * rewrite (record_with_vad_closed c env Hopen) in Hret. discriminate.
    + intros (Hopen & Hwrite & Htrig).
      rewrite (ret_value c env Hopen). fold st.
      pose proof (recording_has_frames HI Htrig Hpad) as Hne.
      destruct (frames st); [contradiction|exact Hwrite].
Qed.

Lemma recording_starts_at_first_voiced_triple_witness :
  let env := sample_env (fun i => (4 <=? i) && (i <? 7)) 100 true in
  triggered (final_state small_caps env) = true /\
  0 < padding_frames small_caps /\
  (exists t, t + 3 <= total_frames (final_state small_caps env) /\
             voiced_triple env t = true) /\
  ret (record_with_vad small_caps env) = true.
Proof.
  intros env.
  assert (Htrig : triggered (final_state small_caps env) = true) by reflexivity.
  assert (Hpad : 0 < padding_frames small_caps) by (cbn; lia).
  destruct (recording_starts_at_first_voiced_triple small_caps env)
    as (Hiff & _ & Hret).
  pose proof (proj1 Hiff Htrig) as Hex.
  split; [exact Htrig|]. split; [exact Hpad|]. split; [exact Hex|].
  apply (Hret Hpad). split; [reflexivity|]. split; [reflexivity|exact Hex].
Defined.

Lemma ring_is_recent_window (c : Caps) (env : Env) (st : LoopState) :
  Inv c env st -> Story c env st ->
  triggered st = true ->
  length (ring_buffer st) = ring_maxlen c ->
  ring_maxlen c + 3 <= total_frames st /\
  ring_buffer st
  = skipn (total_frames st - ring_maxlen c) (verdicts env (total_frames st)).
Proof.
  intros HI HS Htrig Hfull.
  destruct (story_recording HS Htrig) as (t & Ht & _ & _ & _ & Hring).
  pose proof (f_equal (@length bool) Hring) as Hlen.
  rewrite !length_skipn, length_verdicts, Hfull in Hlen.
  split; [lia|].
  rewrite Hring, skipn_skipn, length_skipn, length_verdicts.
  f_equal. lia.
Qed.

(** X2: when the loop is left by the silence check, the recording was
    triggered by the first three consecutive voiced frames, [t], [t+1] and
    [t+2]; the ring holds the classifications of the last
    [ring_buffer.maxlen] frames read, all of them read after these three
    frames, and fewer than one in ten of them is voiced. *)
Theorem silence_stop_judges_last_frames (c : Caps) (env : Env) :
  loop_exit c env = ExitSilence ->
  let st := final_state c env in
  let k := ring_maxlen c in
  0 < k /\
  (exists t,
      (verdict env t = true /\ verdict env (S t) = true /\
       verdict env (S (S t)) = true) /\
      (forall t', t' < t ->
         verdict env t' && verdict env (S t') && verdict env (S (S t'))
         = false) /\
      t + 3 + k <= total_frames st) /\
  k + 3 <= total_frames st /\
  ring_buffer st = skipn (total_frames st - k) (verdicts env (total_frames st)) /\
  ring_buffer st = map (verdict env) (seq (total_frames st - k) k) /\
  10 * count_occ bool_dec
         (skipn (total_frames st - k) (verdicts env (total_frames st))) true
  < k.
Proof.
  intros Hex st k.
  destruct (run_Story c env) as [_ HS]. fold st in HS.
  pose proof (final_state_Inv c env) as HI. fold st in HI.
  pose proof (run_loop_Ended c env) as Hend. rewrite Hex in Hend.
  destruct Hend as (st0 & f & evs & Hreach & Hlt & Hread & Hproc).
  fold st in Hproc.
  pose proof (break_is_recording c env _ _ Hproc) as Htrig0.
  unfold process_frame in Hproc.
  rewrite on_frame_recording in Hproc by (state_simpl; exact Htrig0).
  cbv zeta in Hproc.
  pose proof (f_equal snd Hproc) as Hbrk.
  pose proof (f_equal (fun x => fst (fst x)) Hproc) as Hst.
  cbn [fst snd] in Hbrk, Hst.
  apply andb_prop in Hbrk. destruct Hbrk as [Hfull Hsil].
  apply Nat.eqb_eq in Hfull. unfold mostly_silent, num_voiced in Hsil.
  apply Nat.ltb_lt in Hsil.
  assert (Hring : ring_buffer st
                  = Deque.append (ring_maxlen c) (ring_buffer (count_frame st0))
                      (is_speech_of (vad_is_speech env (total_frames st0) f)))
    by (rewrite <- Hst; reflexivity).
  assert (Htrig : triggered st = true) by (rewrite <- Hst; reflexivity).
  rewrite <- Hring in Hfull, Hsil.
  destruct (ring_is_recent_window HI HS Htrig Hfull) as [Hk Hwin].
  fold k in Hfull, Hk, Hwin.
  rewrite Hwin in Hsil at 1. rewrite Hfull in Hsil.
  assert (Hpos : 0 < k) by lia.
  split; [exact Hpos|].
  split.
  { destruct (story_recording HS Htrig) as (t & Ht & Htriple & Hfirst & _ & Hrb).
    exists t.
    unfold voiced_triple in Htriple.
    apply andb_prop in Htriple. destruct Htriple as [H01 H2].
    apply andb_prop in H01. destruct H01 as [H0 H1].
    split; [repeat split; assumption|].
    split; [exact Hfirst|].
    pose proof (f_equal (@length bool) Hrb) as Hlen.
    rewrite !length_skipn, length_verdicts, Hfull in Hlen.
    fold k in Hlen. lia. }
  split; [exact Hk|]. split; [exact Hwin|].
  split; [|exact Hsil].
  rewrite Hwin. unfold verdicts. rewrite skipn_map, skipn_seq.
  do 2 f_equal. lia.
Qed.

(** Silence, then three voiced frames from the third on, one more voiced
    frame and 19 unvoiced ones: the ring of 20 holds the classifications
    of frames 5 to 24, one of them voiced. *)
Lemma silence_stop_judges_last_frames_witness :
  let env := sample_env (fun i => (2 <=? i) && (i <? 6)) 40 true in
  loop_exit wide_caps env = ExitSilence /\
  ring_buffer (final_state wide_caps env) = true :: repeat false 19 /\
  total_frames (final_state wide_caps env) = 25 /\
  (exists t,
      (verdict env t = true /\ verdict env (S t) = true /\
       verdict env (S (S t)) = true) /\
      (forall t', t' < t ->
         verdict env t' && verdict env (S t') && verdict env (S (S t'))
         = false) /\
      t + 3 + 20 <= 25) /\
  10 * count_occ bool_dec (skipn 5 (verdicts env 25)) true < 20.
Proof.
  intros env.
  assert (Hex : loop_exit wide_caps env = ExitSilence)
    by (vm_compute; reflexivity).
  assert (Htot : total_frames (final_state wide_caps env) = 25)
    by (vm_compute; reflexivity).
  destruct (silence_stop_judges_last_frames wide_caps env Hex)
    as (_ & Ht & _ & Hwin & _ & Hsil).
  rewrite Htot in Ht, Hwin, Hsil.
  split; [exact Hex|].
  split; [rewrite Hwin; vm_compute; reflexivity|].
  split; [exact Htot|].
  split; [exact Ht|exact Hsil].
Defined.

Lemma num_voiced_pos_In (rb : list bool) :
  0 < num_voiced rb -> In true rb.
Proof.
  unfold num_voiced. intros H. apply (count_occ_In bool_dec). exact H.
Qed.

(** X3: each time the loop goes round again while recording, once
    [ring_buffer.maxlen] frames have been recorded, at least one in ten of
    the last [maxlen] frames read was classified as speech; so a stretch of
    [maxlen] recorded frames without speech always ends the recording. *)
Theorem recording_goes_on_only_while_voiced
        (c : Caps) (env : Env) (st : LoopState) :
  Reachable c env st ->
  triggered st = true ->
  0 < ring_maxlen c ->
  length (ring_buffer st) = ring_maxlen c ->
  let k := ring_maxlen c in
  let recent := skipn (total_frames st - k) (verdicts env (total_frames st)) in
  ring_buffer st = recent /\
  k <= 10 * num_voiced recent /\
  exists i, total_frames st - k <= i < total_frames st /\ verdict env i = true.
Proof.
  intros Hreach Htrig Hpos Hfull k recent.
  destruct (run_Story c env) as [HS _]. specialize (HS st Hreach).
  pose proof (Reachable_Inv Hreach) as HI.
  destruct (ring_is_recent_window HI HS Htrig Hfull) as [Hk Hwin].
  fold k in Hk, Hwin, Hfull, Hpos. fold recent in Hwin.
  pose proof (Reachable_full_ring_voiced Hreach Htrig Hfull) as Hvoiced.
  unfold mostly_silent in Hvoiced. apply Nat.ltb_ge in Hvoiced.
  rewrite Hfull in Hvoiced. fold k in Hvoiced. rewrite Hwin in Hvoiced.
  split; [exact Hwin|]. split; [exact Hvoiced|].
  assert (Hin : In true recent) by (apply num_voiced_pos_In; lia).
  subst recent. unfold verdicts in Hin.
  rewrite skipn_map, skipn_seq in Hin.
  apply in_map_iff in Hin. destruct Hin as (i & Hi & Hseq).
  apply in_seq in Hseq. exists i. split; [lia|exact Hi].
Qed.

Lemma recording_goes_on_only_while_voiced_witness :
  let env := sample_env (fun _ => true) 100 true in
  let st := state_at small_caps env 9 in
  Reachable small_caps env st /\
  triggered st = true /\
  0 < ring_maxlen small_caps /\
  length (ring_buffer st) = ring_maxlen small_caps /\
  5 <= 10 * num_voiced (skipn (total_frames st - 5) (verdicts env (total_frames st))).
Proof.
  intros env st.
  assert (Hreach : Reachable small_caps env st)
    by (apply Reachable_state_at; reflexivity).
  assert (Hpos : 0 < ring_maxlen small_caps) by (cbn; lia).
  destruct (recording_goes_on_only_while_voiced Hreach eq_refl Hpos eq_refl)
    as (_ & Hv & _).
  split; [exact Hreach|]. split; [reflexivity|]. split; [exact Hpos|].
  split; [reflexivity|exact Hv].
Defined.

(** ** Slugs *)

Module TextFacts.
Import Ascii String Text.
Local Open Scope string_scope.
Local Open Scope nat_scope.

Ltac each_char ch :=
  destruct ch as [[] [] [] [] [] [] [] []]; vm_compute; try reflexivity;
  try discriminate; auto.

Lemma replace_space (s : string) :
  str_replace " " "-" s
  = map_chars (fun ch => if Ascii.eqb ch " " then "-"%char else ch) s.
Proof.
  unfold str_replace.
  induction s as [|ch rest IH]; [reflexivity|].
  cbn [replace_from prefix length Nat.sub map_chars]. rewrite IH.
  destruct (ascii_dec " " ch) as [<-|Hne].
  - destruct rest; reflexivity.
  - destruct (Ascii.eqb_spec ch " ") as [->|_]; [contradiction|reflexivity].
Qed.

Lemma slugify_cons (ch : ascii) (rest : string) :
  slugify (String ch rest) = slug_of_char ch ++ slugify rest.
Proof.
  unfold slugify. rewrite !replace_space. cbn [str_lower map_chars str_delete].
  unfold slug_of_char. cbv zeta.
  destruct (mem_char _ deleted); reflexivity.
Qed.

Lemma slugify_nil : slugify "" = "".
Proof. reflexivity. Qed.

Lemma all_chars_app (p : ascii -> bool) (a b : string) :
  all_chars p (a ++ b) = all_chars p a && all_chars p b.
Proof.
  induction a as [|ch a IH]; [reflexivity|].
  cbn [append all_chars]. rewrite IH, andb_assoc. reflexivity.
Qed.

Lemma slug_of_char_clean (ch : ascii) :
  all_chars slug_char (slug_of_char ch) = true.
Proof. each_char ch. Qed.

Lemma slug_of_char_fixed (ch : ascii) :
  slug_char ch = true -> slug_of_char ch = String ch "".
Proof. each_char ch. Qed.

Lemma slug_of_char_fixed_inv (ch : ascii) :
  slug_of_char ch = String ch "" -> slug_char ch = true.
Proof. each_char ch. Qed.

Lemma slug_of_char_length (ch : ascii) : length (slug_of_char ch) <= 1.
Proof.
  unfold slug_of_char. cbv zeta.
  destruct (mem_char _ deleted); cbn; lia.
Qed.

Lemma slugify_all_clean (s : string) : all_chars slug_char (slugify s) = true.
Proof.
  induction s as [|ch rest IH]; [reflexivity|].
  rewrite slugify_cons, all_chars_app, slug_of_char_clean, IH. reflexivity.
Qed.

Lemma slugify_fixed (s : string) :
  all_chars slug_char s = true -> slugify s = s.
Proof.
  induction s as [|ch rest IH]; [reflexivity|].
  cbn [all_chars]. intros H. apply andb_prop in H. destruct H as [Hch Hrest].
  rewrite slugify_cons, (slug_of_char_fixed _ Hch), (IH Hrest). reflexivity.
Qed.

Lemma all_chars_In (p : ascii -> bool) (s : string) (ch : ascii) :
  all_chars p s = true -> In ch (list_ascii_of_string s) -> p ch = true.
Proof.
  induction s as [|ch' rest IH]; cbn [all_chars list_ascii_of_string In].
  - intros _ [].
  - intros H. apply andb_prop in H. destruct H as [Hch Hrest].
    intros [<-|Hin]; auto.
Qed.

Lemma slugify_app (a b : string) : slugify (a ++ b) = slugify a ++ slugify b.
Proof.
  induction a as [|ch a IH]; [reflexivity|].
  cbn [append]. rewrite !slugify_cons, IH.
  generalize (slug_of_char ch) as x. intros x.
  induction x as [|c x IHx]; [reflexivity|].
  cbn [append]. rewrite IHx. reflexivity.
Qed.

Lemma slugify_length (s : string) : length (slugify s) <= length s.
Proof.
  induction s as [|ch rest IH]; [cbn; lia|].
  rewrite slugify_cons. pose proof (slug_of_char_length ch) as H.
  cbn [length].
  assert (Happ : forall x y, length (x ++ y) = length x + length y).
  { induction x as [|c x IHx]; intros y; cbn; [reflexivity|].
    rewrite IHx. reflexivity. }
  rewrite Happ. lia.
Qed.

(** X4: for an ASCII title, the slug contains no space, no upper-case
    letter and none of the punctuation characters [slugify] deletes; in
    particular it contains no slash, no backslash and no dot. *)
Theorem slug_is_clean (text : string) (ch : ascii) :
  ascii_text text ->
  In ch (list_ascii_of_string (slugify text)) ->
  ch <> " "%char /\ is_upper ch = false /\ mem_char ch deleted = false /\
  ch <> "/"%char /\ ch <> "\"%char /\ ch <> "."%char.
Proof.
  intros _ Hin.
  pose proof (all_chars_In _ _ _ (slugify_all_clean text) Hin) as H.
  revert H. clear Hin. each_char ch; repeat split; discriminate.
Qed.

Lemma slug_is_clean_witness :
  ascii_text "My Note: a/b.c" /\
  In "-"%char (list_ascii_of_string (slugify "My Note: a/b.c")) /\
  slugify "My Note: a/b.c" = "my-note-abc" /\
  "-"%char <> "/"%char.
Proof.
  assert (Hascii : ascii_text "My Note: a/b.c") by reflexivity.
  assert (Hin : In "-"%char (list_ascii_of_string (slugify "My Note: a/b.c")))
    by (vm_compute; tauto).
  destruct (@slug_is_clean _ _ Hascii Hin) as (_ & _ & _ & Hslash & _).
  split; [exact Hascii|]. split; [exact Hin|]. split; [reflexivity|exact Hslash].
Defined.

(** X5: for ASCII text, [slugify] leaves a string unchanged exactly when
    the string is made of slug characters only (no space, upper-case letter
    or deleted punctuation), and slugifying a slug changes nothing. *)
Theorem slugify_fixed_points (text : string) :
  ascii_text text ->
  (slugify text = text <-> all_chars slug_char text = true) /\
  slugify (slugify text) = slugify text.
Proof.
  intros _. split; [split|].
  - intros H. rewrite <- H. apply slugify_all_clean.
  - apply slugify_fixed.
  - apply slugify_fixed, slugify_all_clean.
Qed.

Lemma slugify_fixed_points_witness :
  ascii_text "Weekly Review (Q3)" /\
  slugify "Weekly Review (Q3)" = "weekly-review-q3" /\
  slugify (slugify "Weekly Review (Q3)") = slugify "Weekly Review (Q3)".
Proof.
  assert (Hascii : ascii_text "Weekly Review (Q3)") by reflexivity.
  destruct (@slugify_fixed_points _ Hascii) as [_ Hidem].
  split; [exact Hascii|]. split; [reflexivity|exact Hidem].
Defined.

(** X6: for ASCII text, [slugify] works character by character: the slug of
    a concatenation is the concatenation of the slugs, and a slug is never
    longer than the title. *)
Theorem slugify_concat (a b : string) :
  ascii_text a -> ascii_text b ->
  slugify (a ++ b) = slugify a ++ slugify b /\
  length (slugify (a ++ b)) <= length a + length b.
Proof.
  intros _ _. split; [apply slugify_app|].
  pose proof (slugify_length (a ++ b)) as H.
  assert (Happ : forall x y, length (x ++ y) = length x + length y).
  { induction x as [|c x IHx]; intros y; cbn; [reflexivity|].
    rewrite IHx. reflexivity. }
  rewrite Happ in H. exact H.
Qed.

Lemma slugify_concat_witness :
  ascii_text "Call " /\ ascii_text "Mom!" /\
  slugify ("Call " ++ "Mom!") = "call-" ++ "mom".
Proof.
  assert (Ha : ascii_text "Call ") by reflexivity.
  assert (Hb : ascii_text "Mom!") by reflexivity.
  destruct (@slugify_concat _ _ Ha Hb) as [Happ _].
  split; [exact Ha|]. split; [exact Hb|].
  rewrite Happ. reflexivity.
Defined.

End TextFacts.

(** ** Temporary files *)

Module FilesFacts.
Import Ascii String Text Files.
Local Open Scope string_scope.
Local Open Scope nat_scope.

Lemma append_empty_r (s : string) : s ++ "" = s.
Proof. induction s as [|ch s IH]; cbn; [|rewrite IH]; reflexivity. Qed.

Lemma length_drop_le (k : nat) (s : string) : length (drop k s) <= length s.
Proof.
  revert s. induction k as [|k IH]; intros [|ch s]; cbn; auto;
    try (specialize (IH s); lia).
Qed.

Lemma replace_from_skip (old new : string) (k : nat) (s : string) :
  replace_from old new k s = replace_from old new 0 (drop k s).
Proof.
  revert s. induction k as [|k IH]; intros s; [reflexivity|].
  destruct s as [|ch s]; [reflexivity|]. cbn [replace_from drop]. apply IH.
Qed.

Lemma prefix_drop (a s : string) :
  prefix a s = true -> s = a ++ drop (length a) s.
Proof.
  revert s. induction a as [|c a IH]; intros s; [reflexivity|].
  destruct s as [|ch s]; cbn [prefix]; [discriminate|].
  destruct (ascii_dec c ch) as [->|]; [|discriminate].
  intros H. cbn [length drop append]. rewrite <- (IH s H). reflexivity.
Qed.

(** Replacing a string by itself changes nothing. *)
Lemma replace_self (c : ascii) (old' s : string) :
  str_replace (String c old') (String c old') s = s.
Proof.
  unfold str_replace.
  assert (H : forall n s, length s <= n ->
                replace_from (String c old') (String c old') 0 s = s).
  { clear s. induction n as [|n IH]; intros s Hlen.
    - destruct s; [reflexivity|cbn in Hlen; lia].
    - destruct s as [|ch rest]; [reflexivity|].
      cbn [replace_from].
      destruct (prefix (String c old') (String ch rest)) eqn:Hpre.
      + rewrite replace_from_skip.
        cbn [length Nat.sub]. rewrite Nat.sub_0_r.
        rewrite IH.
        * pose proof (prefix_drop _ _ Hpre) as Hs. cbn [length drop] in Hs.
          symmetry. exact Hs.
        * pose proof (length_drop_le (length old') rest). cbn in Hlen. lia.
      + rewrite IH; [reflexivity|]. cbn in Hlen. lia. }
  apply (H (length s)). lia.
Qed.

Lemma sibling_wav (base_path : string) : sibling base_path ".wav" = base_path.
Proof. apply replace_self. Qed.

(** With no dot before the final [".wav"], the replacement swaps the
    extension. *)
Lemma sibling_of_stem (stem ext : string) :
  mem_char "."%char stem = false ->
  sibling (stem ++ ".wav") ext = stem ++ ext.
Proof.
  unfold sibling, str_replace.
  induction stem as [|ch stem IH]; cbn [mem_char].
  - intros _. cbn. apply append_empty_r.
  - intros H. apply orb_false_elim in H. destruct H as [Hch Hstem].
    cbn [append replace_from prefix].
    destruct (ascii_dec "." ch) as [<-|_]; [discriminate|].
    rewrite (IH Hstem). reflexivity.
Qed.

Lemma path_exists_In (disk : Disk) (path : string) :
  path_exists disk path = true <-> In path disk.
Proof.
  unfold path_exists. rewrite existsb_exists. split.
  - intros (p & Hin & Heq). apply String.eqb_eq in Heq. subst. exact Hin.
  - intros Hin. exists path. split; [exact Hin|apply String.eqb_refl].
Qed.

Lemma In_remove (disk : Disk) (path p : string) :
  In p (remove disk path) <-> In p disk /\ p <> path.
Proof.
  unfold remove. rewrite filter_In. split.
  - intros [Hin Hne]. split; [exact Hin|].
    intros ->. rewrite String.eqb_refl in Hne. discriminate.
  - intros [Hin Hne]. split; [exact Hin|].
    destruct (String.eqb_spec path p) as [->|]; [contradiction|reflexivity].
Qed.

Section Cleanup.

Variable removable : string -> bool.
Variable base_path : string.

Lemma cleanup_one_In (disk : Disk) (ext p : string) :
  In p (cleanup_one removable base_path disk ext) <->
  In p disk /\
  ~ (p = sibling base_path ext /\ removable p = true).
Proof.
  unfold cleanup_one. cbv zeta.
  destruct (path_exists disk (sibling base_path ext)) eqn:Hex.
  - destruct (removable (sibling base_path ext)) eqn:Hrm.
    + rewrite In_remove. split.
      * intros [Hin Hne]. split; [exact Hin|]. intros [Heq _]. contradiction.
      * intros [Hin Hno]. split; [exact Hin|]. intros ->. apply Hno. auto.
    + split; [|tauto]. intros Hin. split; [exact Hin|].
      intros [-> Hr]. congruence.
  - split; [|tauto]. intros Hin. split; [exact Hin|].
    intros [-> _]. apply path_exists_In in Hin. congruence.
Qed.

Lemma cleanup_fold_In (exts : list string) (disk : Disk) (p : string) :
  In p (fold_left (cleanup_one removable base_path) exts disk) <->
  In p disk /\
  ~ (In p (map (sibling base_path) exts) /\ removable p = true).
Proof.
  revert disk. induction exts as [|ext exts IH]; intros disk; cbn [fold_left map In].
  - tauto.
  - rewrite IH, cleanup_one_In. split.
    + intros [[Hin Hone] Hrest]. split; [exact Hin|].
      intros [[Heq|Hin'] Hr]; [apply Hone|apply Hrest]; auto.
    + intros [Hin Hno]. split; [split; [exact Hin|]|].
      * intros [Heq Hr]. apply Hno. auto.
      * intros [Hin' Hr]. apply Hno. auto.
Qed.

End Cleanup.

(** X7: for every base path, [cleanup_temp_files] leaves on the disk exactly
    the files that were there and are not removable candidates: it creates
    nothing, touches no path other than the five it derives from the base
    path, and removes every one of those whose removal succeeds; the base
    path itself and the transcript path [transcribe_audio] reads are always
    among the five. *)
Theorem cleanup_removes_only_candidates
        (removable : string -> bool) (base_path : string) (disk : Disk) :
  (forall p,
      In p (cleanup_temp_files removable base_path disk) <->
      In p disk /\ ~ (In p (temp_candidates base_path) /\ removable p = true)) /\
  In base_path (temp_candidates base_path) /\
  In (txt_file base_path) (temp_candidates base_path) /\
  List.length (temp_candidates base_path) = 5.
Proof.
  split; [|split; [|split]].
  - intros p. apply cleanup_fold_In.
  - left. apply sibling_wav.
  - right. left. reflexivity.
  - reflexivity.
Qed.

Lemma cleanup_removes_only_candidates_witness :
  let disk := ["/tmp/tmpab12.wav"; "/tmp/tmpab12.txt"; "/tmp/keep.txt"] in
  cleanup_temp_files (fun _ => true) "/tmp/tmpab12.wav" disk = ["/tmp/keep.txt"] /\
  In "/tmp/keep.txt" (cleanup_temp_files (fun _ => true) "/tmp/tmpab12.wav" disk).
Proof.
  intros disk.
  destruct (cleanup_removes_only_candidates (fun _ => true) "/tmp/tmpab12.wav" disk)
    as [Hiff _].
  split; [reflexivity|].
  apply Hiff. split; [cbn; tauto|].
  intros [Hin _]. cbn in Hin.
  repeat (destruct Hin as [Hin|Hin]; [discriminate|]). exact Hin.
Defined.

(** X8: when the audio path is a stem without any dot followed by
    [".wav"], as the names made by [mkstemp(suffix=".wav")] in a directory
    without dots are, the five paths [cleanup_temp_files] removes are the
    stem with the extensions .wav, .txt, .srt, .vtt and .json, and
    [transcribe_audio] reads the stem with .txt. *)
Theorem temp_paths_of_stem (stem : string) :
  mem_char "."%char stem = false ->
  temp_candidates (stem ++ ".wav")
  = [stem ++ ".wav"; stem ++ ".txt"; stem ++ ".srt"; stem ++ ".vtt";
     stem ++ ".json"] /\
  txt_file (stem ++ ".wav") = stem ++ ".txt".
Proof.
  intros Hstem. unfold temp_candidates, temp_extensions, txt_file.
  cbn [map]. fold (sibling (stem ++ ".wav") ".txt").
  rewrite !(sibling_of_stem _ _ Hstem). split; reflexivity.
Qed.

Lemma temp_paths_of_stem_witness :
  mem_char "."%char "/tmp/tmpab12" = false /\
  txt_file ("/tmp/tmpab12" ++ ".wav") = "/tmp/tmpab12" ++ ".txt".
Proof.
  assert (H : mem_char "."%char "/tmp/tmpab12" = false) by reflexivity.
  split; [exact H|]. apply (temp_paths_of_stem _ H).
Defined.

End FilesFacts.

(** ** The tools *)

Module ToolFacts.
Import Ascii String Text Files Tool.
Local Open Scope string_scope.
Local Open Scope nat_scope.

(** Split on every condition [call_tool] tests. *)
Ltac tool_cases :=
  repeat match goal with
         | |- context [if ?x then _ else _] => destruct x eqn:?
         | |- context [match ?x with Some _ => _ | None => _ end] =>
           destruct x eqn:?
         | |- context [match ?x with TxtMissing => _ | _ => _ end] =>
           destruct x eqn:?
         | |- context [let (_, _) := ?x in _] => destruct x eqn:?
         end.





Lemma truthy_false (s : string) : truthy s = false <-> s = "".
Proof. destruct s; cbn; split; (reflexivity || discriminate). Qed.

Lemma filename_is_note_filename (w : World) (arguments : list (string * string)) :
  (if truthy (dict_get arguments "title" "")
   then "voice-" ++ slugify (dict_get arguments "title" "") ++ ".md"
   else "voice-" ++ now_stamp w ++ ".md")
  = note_filename w arguments.
Proof. reflexivity. Qed.

(** The part both tools share: what happens from [mkstemp] to the cleanup
    after transcription, and the transcript if there is a usable one. *)
Lemma record_voice_note_unfold (c : Caps) (w : World)
      (arguments : list (string * string)) :
  vault_ready w arguments ->
  let temp := mkstemp w in
  let r := record_with_vad c (microphone w) in
  let filename := note_filename w arguments in
  call_tool c w "record_voice_note" arguments
  = if negb (ret r) then
      ([TMkstemp temp; TRecord temp r; TCleanup temp],
       "Error: No speech detected or recording failed.")
    else if audio_too_short w then
      ([TMkstemp temp; TRecord temp r; TCleanup temp],
       "Error: No audio captured or recording too short.")
    else
      match snd (transcribe_audio w temp) with
      | Some (String ch rest) =>
        match write_text_error w with
        | None =>
          (([TMkstemp temp; TRecord temp r] ++ fst (transcribe_audio w temp)
             ++ [TCleanup temp; TWriteText filename (String ch rest) true])%list,
           "Voice note saved to inbox/" ++ filename ++ newline ++ newline
             ++ "--- Transcription ---" ++ newline ++ String ch rest)
        | Some e =>
          (([TMkstemp temp; TRecord temp r] ++ fst (transcribe_audio w temp)
             ++ [TCleanup temp; TWriteText filename (String ch rest) false;
                 TCleanup temp])%list,
           "Error: " ++ e)
        end
      | _ =>
        (([TMkstemp temp; TRecord temp r] ++ fst (transcribe_audio w temp)
           ++ [TCleanup temp])%list,
         "Error: Transcription failed or no speech detected.")
      end.
Proof.
  intros [Hinbox Hfree] temp r filename.
  unfold call_tool. cbn [String.eqb Ascii.eqb Bool.eqb].
  rewrite Hinbox. cbn [negb]. cbv zeta.
  rewrite filename_is_note_filename, Hfree.
  fold temp r filename.
  destruct (negb (ret r)); [reflexivity|].
  destruct (audio_too_short w); [reflexivity|].
  destruct (transcribe_audio w temp) as [heard [[|ch rest]|]]; reflexivity.
Qed.

Lemma listen_unfold (c : Caps) (w : World) (arguments : list (string * string)) :
  let temp := mkstemp w in
  let r := record_with_vad c (microphone w) in
  call_tool c w "listen" arguments
  = if negb (ret r) then
      ([TMkstemp temp; TRecord temp r; TCleanup temp],
       "Error: No speech detected or recording failed.")
    else if audio_too_short w then
      ([TMkstemp temp; TRecord temp r; TCleanup temp],
       "Error: No audio captured or recording too short.")
    else
      match snd (transcribe_audio w temp) with
      | Some (String ch rest) =>
        (([TMkstemp temp; TRecord temp r] ++ fst (transcribe_audio w temp)
           ++ [TCleanup temp])%list,
         "[Voice input from user]: " ++ String ch rest)
      | _ =>
        (([TMkstemp temp; TRecord temp r] ++ fst (transcribe_audio w temp)
           ++ [TCleanup temp])%list,
         "Error: Transcription failed or no speech detected.")
      end.
Proof.
  intros temp r.
  unfold call_tool. cbn [String.eqb Ascii.eqb Bool.eqb]. cbv zeta.
  fold temp r.
  destruct (negb (ret r)); [reflexivity|].
  destruct (audio_too_short w); [reflexivity|].
  destruct (transcribe_audio w temp) as [heard [[|ch rest]|]]; reflexivity.
Qed.

Lemma transcribe_audio_events (w : World) (audio_path : string) :
  forallb uses_temp (fst (transcribe_audio w audio_path)) = true /\
  forallb (fun e => negb (is_note_write e)) (fst (transcribe_audio w audio_path)) = true.
Proof.
  unfold transcribe_audio.
  destruct (whisper_ok w); [destruct (txt_at w _)|]; split; reflexivity.
Qed.

End ToolFacts.

(** ** What the tools do with a recording *)

Module ToolTheorems.
Import Ascii String Text Files Tool TextFacts ToolFacts.
Local Open Scope string_scope.
Local Open Scope nat_scope.





Lemma not_in_heard (w : World) (p filename text : string) (ok : bool) :
  ~ In (TWriteText filename text ok) (fst (transcribe_audio w p)).
Proof.
  intros Hin.
  destruct (transcribe_audio_events w p) as [_ Hall].
  rewrite forallb_forall in Hall. specialize (Hall _ Hin). discriminate.
Qed.

(** Everything that must have happened for a note to be written. *)
Lemma note_write_inv (c : Caps) (w : World) (name : string)
      (arguments : list (string * string)) (filename text : string) (ok : bool) :
  In (TWriteText filename text ok) (fst (call_tool c w name arguments)) ->
  name = "record_voice_note" /\
  vault_ready w arguments /\
  filename = note_filename w arguments /\
  ret (record_with_vad c (microphone w)) = true /\
  audio_too_short w = false /\
  snd (transcribe_audio w (mkstemp w)) = Some text /\
  text <> "" /\
  (ok = true <-> write_text_error w = None).
Proof.
  destruct (String.eqb_spec name "record_voice_note") as [->|Hname].
  - destruct (inbox_exists w) eqn:Hinbox.
    + destruct (note_exists w (note_filename w arguments)) eqn:Hfree.
      * unfold call_tool. cbn [String.eqb Ascii.eqb Bool.eqb].
        rewrite Hinbox. cbn [negb]. cbv zeta.
        rewrite filename_is_note_filename, Hfree. cbn. tauto.
      * assert (Hready : vault_ready w arguments) by (split; assumption).
        rewrite (record_voice_note_unfold c Hready). cbv zeta.
        destruct (ret (record_with_vad c (microphone w))) eqn:Hret; cbn [negb];
          [|cbn; intros [H|[H|[H|[]]]]; discriminate].
        destruct (audio_too_short w) eqn:Hshort;
          [cbn; intros [H|[H|[H|[]]]]; discriminate|].
        destruct (snd (transcribe_audio w (mkstemp w))) as [[|ch rest]|] eqn:Htr.
        -- cbn [fst]. rewrite !in_app_iff. cbn [In].
           intros [[H|[H|[]]]|[H|[H|[]]]]; try discriminate.
           exfalso. eapply not_in_heard; eauto.
        -- destruct (write_text_error w) as [e|] eqn:Hw; cbn [fst];
             rewrite !in_app_iff; cbn [In];
             intros [[H|[H|[]]]|[H|H]]; try discriminate;
             try (exfalso; eapply not_in_heard; eassumption).
           ++ destruct H as [H|[H|[H|[]]]]; try discriminate.
              inversion H; subst.
              repeat split; auto; try discriminate; try congruence.
           ++ destruct H as [H|[H|[]]]; try discriminate.
              inversion H; subst.
              repeat split; auto; try discriminate; try congruence.
        -- cbn [fst]. rewrite !in_app_iff. cbn [In].
           intros [[H|[H|[]]]|[H|[H|[]]]]; try discriminate.
           exfalso. eapply not_in_heard; eauto.
    + unfold call_tool. cbn [String.eqb Ascii.eqb Bool.eqb].
      rewrite Hinbox. cbn. tauto.
  - destruct (String.eqb_spec name "listen") as [->|Hname'].
    + rewrite listen_unfold. cbv zeta.
      destruct (negb (ret _)); [cbn; intros [H|[H|[H|[]]]]; discriminate|].
      destruct (audio_too_short w); [cbn; intros [H|[H|[H|[]]]]; discriminate|].
      destruct (snd (transcribe_audio w (mkstemp w))) as [[|ch rest]|];
        cbn [fst]; rewrite !in_app_iff; cbn [In];
        intros [[H|[H|[]]]|[H|[H|[]]]]; try discriminate;
        exfalso; eapply not_in_heard; eauto.
    + unfold call_tool.
      destruct (String.eqb_spec name "record_voice_note"); [contradiction|].
      destruct (String.eqb_spec name "listen"); [contradiction|].
      cbn. tauto.
Qed.

(** X9: [call_tool] handles exactly the tools [list_tools] advertises,
    [record_voice_note] and [listen], neither of which requires an
    argument: for any other name it does nothing and answers
    "Unknown tool: <name>", and for an advertised name it never gives that
    answer. *)
Theorem advertised_tools_are_handled
        (c : Caps) (w : World) (name : string) (arguments : list (string * string)) :
  map tool_name list_tools = ["record_voice_note"; "listen"] /\
  (forall t, In t list_tools -> required t = []) /\
  (~ In name (map tool_name list_tools) ->
   call_tool c w name arguments = ([], "Unknown tool: " ++ name)) /\
  (In name (map tool_name list_tools) ->
   snd (call_tool c w name arguments) <> "Unknown tool: " ++ name).
Proof.
  split; [reflexivity|]. split; [|split].
  - intros t [<-|[<-|[]]]; reflexivity.
  - cbn [map list_tools tool_name In]. intros Hno. unfold call_tool.
    destruct (String.eqb_spec name "record_voice_note") as [->|_]; [tauto|].
    destruct (String.eqb_spec name "listen") as [->|_]; [tauto|].
    reflexivity.
  - cbn [map list_tools tool_name In]. intros [<-|[<-|[]]].
    + unfold call_tool. cbn [String.eqb Ascii.eqb Bool.eqb]. cbv zeta.
      generalize (record_with_vad c (microphone w)). intros r.
      tool_cases; cbn [snd append]; discriminate.
    + unfold call_tool. cbn [String.eqb Ascii.eqb Bool.eqb]. cbv zeta.
      generalize (record_with_vad c (microphone w)). intros r.
      tool_cases; cbn [snd append]; discriminate.
Qed.

Lemma advertised_tools_are_handled_witness :
  ~ In "delete_note" (map tool_name list_tools) /\
  call_tool server_caps (sample_world TxtMissing None) "delete_note" []
  = ([], "Unknown tool: delete_note").
Proof.
  assert (Hno : ~ In "delete_note" (map tool_name list_tools)).
  { cbn. intros [H|[H|[]]]; discriminate. }
  destruct (advertised_tools_are_handled server_caps
              (sample_world TxtMissing None) "delete_note" [])
    as (_ & _ & Hunknown & _).
  split; [exact Hno|exact (Hunknown Hno)].
Defined.



(** X11: whenever [call_tool] creates the temporary audio file it calls
    [cleanup_temp_files] on it, after the recording and the transcription;
    what follows that cleanup neither records nor transcribes nor reads the
    transcript.  A call that creates no temporary file does nothing at
    all. *)
Theorem temp_files_always_cleaned
        (c : Caps) (w : World) (name : string) (arguments : list (string * string)) :
  let evs := fst (call_tool c w name arguments) in
  evs = [] \/
  exists used after,
    evs = (TMkstemp (mkstemp w)
             :: TRecord (mkstemp w) (record_with_vad c (microphone w))
             :: used ++ TCleanup (mkstemp w) :: after)%list /\
    forallb uses_temp used = true /\
    forallb (fun e => negb (uses_temp e)) after = true.
Proof.
  intros evs. subst evs.
  assert (Hshape : forall heard tail,
             forallb uses_temp heard = true ->
             forallb (fun e => negb (uses_temp e)) tail = true ->
             exists used after,
               ([TMkstemp (mkstemp w);
                 TRecord (mkstemp w) (record_with_vad c (microphone w))]
                  ++ heard ++ TCleanup (mkstemp w) :: tail)%list
               = (TMkstemp (mkstemp w)
                    :: TRecord (mkstemp w) (record_with_vad c (microphone w))
                    :: used ++ TCleanup (mkstemp w) :: after)%list /\
               forallb uses_temp used = true /\
               forallb (fun e => negb (uses_temp e)) after = true).
  { intros heard tail Hh Ht. exists heard, tail. auto. }
  pose proof (transcribe_audio_events w (mkstemp w)) as [Hheard _].
  assert (Hbody :
    forall r : list ToolEvent * string,
      (r = ([TMkstemp (mkstemp w);
             TRecord (mkstemp w) (record_with_vad c (microphone w));
             TCleanup (mkstemp w)], snd r) \/
       exists tail,
         fst r = ([TMkstemp (mkstemp w);
                   TRecord (mkstemp w) (record_with_vad c (microphone w))]
                    ++ fst (transcribe_audio w (mkstemp w))
                    ++ TCleanup (mkstemp w) :: tail)%list /\
         forallb (fun e => negb (uses_temp e)) tail = true) ->
      fst r = [] \/
      exists used after,
        fst r = (TMkstemp (mkstemp w)
                   :: TRecord (mkstemp w) (record_with_vad c (microphone w))
                   :: used ++ TCleanup (mkstemp w) :: after)%list /\
        forallb uses_temp used = true /\
        forallb (fun e => negb (uses_temp e)) after = true).
  { intros r [Hr|(tail & Hr & Htail)]; right.
    - rewrite Hr. cbn [fst]. exact (Hshape [] [] eq_refl eq_refl).
    - rewrite Hr. exact (Hshape _ tail Hheard Htail). }
  destruct (String.eqb_spec name "record_voice_note") as [->|Hname].
  - destruct (inbox_exists w) eqn:Hinbox.
    + destruct (note_exists w (note_filename w arguments)) eqn:Hfree.
      * left. unfold call_tool. cbn [String.eqb Ascii.eqb Bool.eqb].
        rewrite Hinbox. cbn [negb]. cbv zeta.
        rewrite filename_is_note_filename, Hfree. reflexivity.
      * assert (Hready : vault_ready w arguments) by (split; assumption).
        apply Hbody. rewrite (record_voice_note_unfold c Hready). cbv zeta.
        destruct (negb (ret _)); [left; reflexivity|].
        destruct (audio_too_short w); [left; reflexivity|].
        destruct (snd (transcribe_audio w (mkstemp w))) as [[|ch rest]|];
          [right; exists []; split; reflexivity
          |destruct (write_text_error w); right; eexists; split; reflexivity
          |right; exists []; split; reflexivity].
    + left. unfold call_tool. cbn [String.eqb Ascii.eqb Bool.eqb].
      rewrite Hinbox. reflexivity.
  - destruct (String.eqb_spec name "listen") as [->|Hname'].
    + apply Hbody. rewrite listen_unfold. cbv zeta.
      destruct (negb (ret _)); [left; reflexivity|].
      destruct (audio_too_short w); [left; reflexivity|].
      destruct (snd (transcribe_audio w (mkstemp w))) as [[|ch rest]|];
        right; exists []; split; reflexivity.
    + left. unfold call_tool.
      destruct (String.eqb_spec name "record_voice_note"); [contradiction|].
      destruct (String.eqb_spec name "listen"); [contradiction|].
      reflexivity.
Qed.





Lemma chars_app (a b : string) :
  list_ascii_of_string (a ++ b)
  = (list_ascii_of_string a ++ list_ascii_of_string b)%list.
Proof.
  induction a as [|ch a IH]; [reflexivity|].
  cbn [append list_ascii_of_string]. rewrite IH. reflexivity.
Qed.

Lemma slug_char_no_separator (ch : ascii) :
  slug_char ch = true -> ch <> "/"%char /\ ch <> "\"%char.
Proof. each_char ch; split; discriminate. Qed.

(** X14: a title cannot send the note outside the inbox: for a non-empty
    ASCII title, the file [record_voice_note] writes is named
    [voice-<slug>.md], and that name contains neither a slash nor a
    backslash. *)
Theorem title_cannot_leave_inbox
        (c : Caps) (w : World) (arguments : list (string * string))
        (title filename text : string) (ok : bool) :
  dict_get arguments "title" "" = title ->
  title <> "" ->
  ascii_text title ->
  In (TWriteText filename text ok)
     (fst (call_tool c w "record_voice_note" arguments)) ->
  filename = "voice-" ++ slugify title ++ ".md" /\
  forall ch, In ch (list_ascii_of_string filename) ->
             ch <> "/"%char /\ ch <> "\"%char.
Proof.
  intros Htitle Hne _ Hin.
  destruct (note_write_inv _ _ _ _ _ _ _ Hin) as (_ & _ & Hfile & _).
  assert (Hname : filename = "voice-" ++ slugify title ++ ".md").
  { rewrite Hfile. unfold note_filename. cbv zeta. rewrite Htitle.
    destruct title; [contradiction|reflexivity]. }
  split; [exact Hname|].
  intros ch Hch. rewrite Hname, !chars_app, !in_app_iff in Hch.
  destruct Hch as [Hch|[Hch|Hch]].
  - cbn in Hch.
    repeat (destruct Hch as [<-|Hch]; [split; discriminate|]). destruct Hch.
  - apply slug_char_no_separator.
    exact (all_chars_In _ _ _ (slugify_all_clean title) Hch).
  - cbn in Hch.
    repeat (destruct Hch as [<-|Hch]; [split; discriminate|]). destruct Hch.
Qed.

Lemma title_cannot_leave_inbox_witness :
  let w := sample_world (TxtContent "x") None in
  let arguments := [("title", "../../etc/passwd")] in
  dict_get arguments "title" "" = "../../etc/passwd" /\
  "../../etc/passwd" <> "" /\
  ascii_text "../../etc/passwd" /\
  In (TWriteText "voice-etcpasswd.md" "x" true)
     (fst (call_tool small_caps w "record_voice_note" arguments)) /\
  "voice-etcpasswd.md" = "voice-" ++ slugify "../../etc/passwd" ++ ".md".
Proof.
  intros w arguments.
  assert (Hne : "../../etc/passwd" <> "") by discriminate.
  assert (Hascii : ascii_text "../../etc/passwd") by reflexivity.
  assert (Hin : In (TWriteText "voice-etcpasswd.md" "x" true)
                   (fst (call_tool small_caps w "record_voice_note" arguments)))
    by (vm_compute; tauto).
  destruct (@title_cannot_leave_inbox small_caps w arguments _ _ _ _
              eq_refl Hne Hascii Hin) as [Hname _].
  split; [reflexivity|]. split; [exact Hne|]. split; [exact Hascii|].
  split; [exact Hin|exact Hname].
Defined.



Lemma slugify_punctuation (s : string) :
  all_chars (fun ch => mem_char ch deleted) s = true -> slugify s = "".
Proof.
  induction s as [|ch s IH]; [reflexivity|].
  cbn [all_chars]. intros H. apply andb_prop in H. destruct H as [Hch Hs].
  rewrite slugify_cons, (IH Hs).
  revert Hch. clear. each_char ch.
Qed.

(** X16: how [record_voice_note] names the note at the edges: without a
    title, or with an empty one, the name is [voice-<timestamp>.md]; a
    title made only of characters that [slugify] deletes gives [voice-.md],
    whatever the title, so that once such a note exists every other such
    title is refused with "File already exists" before anything is
    recorded. *)
Theorem note_name_edge_cases
        (c : Caps) (w : World) (arguments : list (string * string)) (title : string) :
  dict_get arguments "title" "" = title ->
  (title = "" -> note_filename w arguments = "voice-" ++ now_stamp w ++ ".md") /\
  note_filename w [] = "voice-" ++ now_stamp w ++ ".md" /\
  (title <> "" ->
   all_chars (fun ch => mem_char ch deleted) title = true ->
   note_filename w arguments = "voice-.md" /\
   (inbox_exists w = true -> note_exists w "voice-.md" = true ->
    call_tool c w "record_voice_note" arguments
    = ([], "Error: File already exists: voice-.md. Use a different title."))).
Proof.
  intros Htitle. split; [|split].
  - intros ->. unfold note_filename. cbv zeta. rewrite Htitle. reflexivity.
  - reflexivity.
  - intros Hne Hpunct.
    assert (Hname : note_filename w arguments = "voice-.md").
    { unfold note_filename. cbv zeta. rewrite Htitle.
      destruct title; [contradiction|].
      cbn [truthy]. rewrite (slugify_punctuation _ Hpunct). reflexivity. }
    split; [exact Hname|].
    intros Hinbox Hexists. unfold call_tool.
    cbn [String.eqb Ascii.eqb Bool.eqb]. rewrite Hinbox. cbn [negb]. cbv zeta.
    rewrite filename_is_note_filename, Hname, Hexists. reflexivity.
Qed.

Lemma note_name_edge_cases_witness :
  let w := sample_world TxtMissing None in
  dict_get [("title", "?!")] "title" "" = "?!" /\
  "?!" <> "" /\
  all_chars (fun ch => mem_char ch deleted) "?!" = true /\
  note_filename w [("title", "?!")] = "voice-.md".
Proof.
  intros w.
  assert (Hne : "?!" <> "") by discriminate.
  destruct (@note_name_edge_cases small_caps w [("title", "?!")] "?!" eq_refl)
    as (_ & _ & Hpunct).
  destruct (Hpunct Hne eq_refl) as [Hname _].
  split; [reflexivity|]. split; [exact Hne|]. split; [reflexivity|exact Hname].
Defined.

End ToolTheorems.

(** ** Frame sizes and the size of the recording *)

(** X17: [FRAME_SIZE = int(SAMPLE_RATE * FRAME_DURATION_MS / 1000)] loses
    nothing to the truncation for every sample rate and frame duration
    webrtcvad supports: the frame holds exactly [rate * duration / 1000]
    samples (480 for the constants of the server). *)
Theorem frame_size_is_exact (rate duration : Z) :
  In rate supported_rates ->
  In duration supported_durations ->
  (Conversion.FRAME_SIZE (config_with rate duration) * 1000 = rate * duration)%Z /\
  (0 < Conversion.FRAME_SIZE (config_with rate duration))%Z /\
  Conversion.FRAME_SIZE Conversion.server_config = 480%Z.
Proof.
  intros Hr Hd.
  cbn [supported_rates supported_durations In] in Hr, Hd.
  repeat (destruct Hr as [<-|Hr]);
    repeat (destruct Hd as [<-|Hd]);
    try contradiction; vm_compute; repeat split; reflexivity.
Qed.

Lemma frame_size_is_exact_witness :
  In 48000%Z supported_rates /\ In 20%Z supported_durations /\
  (Conversion.FRAME_SIZE (config_with 48000 20) * 1000 = 48000 * 20)%Z.
Proof.
  assert (Hr : In 48000%Z supported_rates) by (cbn; tauto).
  assert (Hd : In 20%Z supported_durations) by (cbn; tauto).
  destruct (frame_size_is_exact Hr Hd) as [Hexact _].
  split; [exact Hr|]. split; [exact Hd|exact Hexact].
Defined.

Lemma captured_sizes (env : Env) (size n : nat) :
  (forall i f, dev_read env i = Some f -> length f = size) ->
  Forall (fun f => length f = size) (captured env n).
Proof.
  intros Hsize. induction n as [|n IH]; [constructor|].
  cbn [captured]. apply Forall_app. split; [exact IH|].
  destruct (dev_read env n) as [f|] eqn:Hread; constructor; [|constructor].
  exact (Hsize n f Hread).
Qed.

Lemma Forall_skipn {A : Type} (P : A -> Prop) (k : nat) (l : list A) :
  Forall P l -> Forall P (skipn k l).
Proof.
  intros H. rewrite <- (firstn_skipn k l) in H.
  apply Forall_app in H. apply H.
Qed.

Lemma length_concat_uniform (size : nat) (fs : list Frame) :
  Forall (fun f => length f = size) fs ->
  length (wav_payload fs) = size * length fs.
Proof.
  unfold wav_payload. induction 1 as [|f fs Hf _ IH]; [cbn; lia|].
  cbn [concat length]. rewrite length_app, IH, Hf. lia.
Qed.

(** X18: when the device delivers frames of one size and the call returns
    [True], the WAV payload written is a whole number of frames: between
    [min(padding_frames, 3)] and [max_frames] of them, so with the
    server's constants and frames of 960 bytes between 2880 bytes and
    9600000 bytes. *)
Theorem payload_is_whole_frames (c : Caps) (env : Env) (size : nat) :
  (forall i f, dev_read env i = Some f -> length f = size) ->
  ret (record_with_vad c env) = true ->
  let kept := frames (final_state c env) in
  filter is_write (trace (record_with_vad c env))
  = [EWriteWav (wav_payload kept) true] /\
  length (wav_payload kept) = size * length kept /\
  Nat.min (padding_frames c) 3 <= length kept <= max_frames c /\
  (c = server_caps -> size = 960 ->
   2880 <= length (wav_payload kept) <= 960 * (100 * 100)).
Proof.
  intros Hsize Hret kept.
  destruct (open_ok env) eqn:Hopen;
    [|rewrite (record_with_vad_closed c env Hopen) in Hret; discriminate].
  pose proof (final_state_Inv c env) as HI.
  pose proof (trace_writes c env Hopen) as Hwr.
  rewrite (ret_value c env Hopen) in Hret. fold kept in Hret, Hwr.
  assert (Htrig : triggered (final_state c env) = true).
  { destruct (triggered (final_state c env)) eqn:Htrig; [reflexivity|].
    destruct (inv_armed HI Htrig) as (Hnil & _).
    fold kept in Hnil. rewrite Hnil in Hret. discriminate. }
  destruct (inv_recording HI Htrig) as (k & rec & Hk & Hfr & Hsplit & _ & _ & Hp3).
  fold kept in Hfr, Hsplit.
  assert (Hall : Forall (fun f => length f = size) kept).
  { rewrite Hfr. apply Forall_skipn, captured_sizes. exact Hsize. }
  pose proof (length_concat_uniform Hall) as Hlen.
  assert (Hbounds : Nat.min (padding_frames c) 3 <= length kept <= max_frames c).
  { split.
    - rewrite Hsplit, length_app. lia.
    - rewrite Hfr, length_skipn, (inv_captured HI).
      pose proof (inv_total HI). lia. }
  split.
  - rewrite Hwr. destruct kept; [discriminate|]. rewrite Hret. reflexivity.
  - split; [exact Hlen|]. split; [exact Hbounds|].
    intros -> ->. rewrite Hlen.
    assert (Hpad : padding_frames server_caps = 10) by reflexivity.
    assert (Hmax : max_frames server_caps = 100 * 100) by (vm_compute; reflexivity).
    rewrite Hpad, Hmax in Hbounds. cbn [Nat.min] in Hbounds. lia.
Qed.

Lemma pcm_env_sizes (size : nat) (speech : nat -> bool) (reads : nat) :
  forall i f, dev_read (pcm_env size speech reads) i = Some f -> length f = size.
Proof.
  intros i f. cbn [dev_read pcm_env].
  destruct (i <? reads); [|discriminate].
  intros H. injection H as <-. apply repeat_length.
Qed.

Lemma payload_is_whole_frames_witness :
  let env := pcm_env 960 (fun i => i <? 3) 100 in
  (forall i f, dev_read env i = Some f -> length f = 960) /\
  ret (record_with_vad small_caps env) = true /\
  length (wav_payload (frames (final_state small_caps env))) = 960 * 7.
Proof.
  intros env.
  assert (Hsize : forall i f, dev_read env i = Some f -> length f = 960)
    by (apply pcm_env_sizes).
  assert (Hret : ret (record_with_vad small_caps env) = true)
    by (vm_compute; reflexivity).
  destruct (payload_is_whole_frames small_caps env Hsize Hret) as (_ & Hlen & _).
  split; [exact Hsize|]. split; [exact Hret|].
  rewrite Hlen. f_equal.
Defined.
